(** * Verso Spotify player: credential lifecycle and playback coordination

    A shallow embedding of the pieces of the repository that carry
    behaviour:

    - [Auth]: the [jwt] and [session] callbacks of
      [app/api/auth/[...nextauth]/route.ts] (credential freshness and
      refresh);
    - [Home]: the [fetchPlaylists] effect of [app/client-home-page.tsx];
    - [Player]: the [SpotifyPlayer] component of
      [components/SpotifyPlayer.tsx] (device initialisation, SDK listeners,
      playlist-track fetch, playback commands).

    JavaScript numbers that hold timestamps are modelled as [Z] (they are
    integers far below 2^53), [undefined]/[null] as [None], and the
    truthiness tests of the source ([!x], [x && y], [x || y], [x ?? y])
    are written out. *)

From Stdlib Require Import ZArith List String Bool Lia PeanoNat.
Import ListNotations.
Open Scope string_scope.

(** ** JavaScript truthiness *)

(** [!!s] for a value that is a string, [null] or [undefined]: the empty
    string is falsy. *)
Definition truthy (o : option string) : bool :=
  match o with
  | Some s => negb (String.eqb s "")
  | None => false
  end.

(** [!!n] for a value that is a number or [undefined]: zero is falsy. *)
Definition truthy_num (o : option Z) : bool :=
  match o with
  | Some n => negb (Z.eqb n 0)
  | None => false
  end.

(** [o === lit] for a string, [null] or [undefined] on the left. *)
Definition is_str (o : option string) (lit : string) : bool :=
  match o with
  | Some s => String.eqb s lit
  | None => false
  end.

(** The string a template literal interpolates for a value known to be truthy. *)
Definition str (o : option string) : string :=
  match o with
  | Some s => s
  | None => "undefined"
  end.

Definition is_some {A : Type} (o : option A) : bool :=
  match o with
  | Some _ => true
  | None => false
  end.

(* ================================================================== *)
(** ** The credential: [jwt] and [session] callbacks *)

Module Auth.

Local Open Scope Z_scope.

Record User := mkUser {
  name : option string;
  email : option string;
  image : option string
}.

(** The [JWT] interface declared at the end of [route.ts]. *)
Record JWT := mkJWT {
  accessToken : option string;
  refreshToken : option string;
  expiresAt : option Z;          (* seconds since the epoch *)
  user : option User;
  error : option string
}.

(** The fields of the provider [account] that the callback reads. *)
Record Account := mkAccount {
  access_token : option string;
  refresh_token : option string;
  expires_at : option Z
}.

(** The body of a successful answer of the token endpoint. *)
Record RefreshedTokens := mkRefreshed {
  r_access_token : option string;
  r_expires_in : Z;              (* seconds *)
  r_refresh_token : option string
}.

(** The POST to [https://accounts.spotify.com/api/token]:
    [grant_type=refresh_token] with the stored refresh token. *)
Record RefreshRequest := mkRefreshRequest {
  rq_refresh_token : option string
}.

(** What [await fetch(...)], [await response.json()] and the test of
    [response.ok] can give: an exception, a body with [ok] false (the
    body is thrown), or a body with [ok] true. *)
Inductive FetchOutcome :=
| Threw
| NotOk
| Ok (body : RefreshedTokens).

Definition RefreshAccessTokenError : string := "RefreshAccessTokenError".

(** [token.expiresAt && Date.now() < token.expiresAt * 1000], with
    [now] the value of [Date.now()] in milliseconds. *)
Definition isValid (now : Z) (token : JWT) : bool :=
  truthy_num (expiresAt token) &&
  match expiresAt token with
  | Some e => Z.ltb now (e * 1000)
  | None => false
  end.

(** [{ ...token, error: 'RefreshAccessTokenError' }] *)
Definition with_error (token : JWT) : JWT :=
  {| accessToken := accessToken token;
     refreshToken := refreshToken token;
     expiresAt := expiresAt token;
     user := user token;
     error := Some RefreshAccessTokenError |}.

(** [x ?? y] *)
Definition nullish {A : Type} (x y : option A) : option A :=
  match x with
  | Some v => Some v
  | None => y
  end.

(** [{ ...token, accessToken: ..., expiresAt: ..., refreshToken: ... }],
    [later] being the value of [Date.now()] once the answer has arrived. *)
Definition refreshed (later : Z) (token : JWT) (body : RefreshedTokens) : JWT :=
  {| accessToken := r_access_token body;
     refreshToken := nullish (r_refresh_token body) (refreshToken token);
     expiresAt := Some (later / 1000 + r_expires_in body);
     user := user token;
     error := error token |}.

(** The [jwt] callback.  [provider] answers the refresh request; the
    second component lists the refresh requests the invocation sent. *)
Definition jwt (provider : RefreshRequest -> FetchOutcome) (now later : Z)
    (token : JWT) (account : option Account) (usr : option User)
  : JWT * list RefreshRequest :=
  match account, usr with
  | Some a, Some u =>
      ({| accessToken := access_token a;
          refreshToken := refresh_token a;
          expiresAt := expires_at a;
          user := Some u;
          error := None |}, [])
  | _, _ =>
      if isValid now token then (token, [])
      else
        let rq := {| rq_refresh_token := refreshToken token |} in
        match provider rq with
        | Ok body => (refreshed later token body, [rq])
        | NotOk | Threw => (with_error token, [rq])
        end
  end.

(** The fields the [session] callback writes on the session object. *)
Record Session := mkSession {
  s_accessToken : option string;
  s_error : option string;
  s_user : option User
}.

Definition session (token : JWT) : Session :=
  {| s_accessToken := accessToken token;
     s_error := error token;
     s_user := user token |}.

(** The spec's reading of "the stored credential is discarded". *)
Definition discarded (token : JWT) : Prop :=
  accessToken token = None /\ refreshToken token = None /\ expiresAt token = None.

(** *** Scenarios and predicates of the properties below *)

(** A credential that expires at second 1700003600. *)
Definition sample_token : JWT :=
  {| accessToken := Some "access-1";
     refreshToken := Some "refresh-1";
     expiresAt := Some 1700003600;
     user := None;
     error := None |}.

(** A successful answer of the token endpoint that omits [refresh_token]. *)
Definition answer_without_refresh_token : RefreshedTokens :=
  {| r_access_token := Some "access-2";
     r_expires_in := 3600;
     r_refresh_token := None |}.

(** A clock reading (milliseconds) just after that expiry. *)
Definition expired_at : Z := 1700003600001.

End Auth.

(* ================================================================== *)
(** ** Asynchronous functions

    An [async] function runs synchronously up to its next [await] of a
    network call and is resumed, later, with the answer.  It is modelled
    as a finite tree: synchronous effects ([Do]), a request whose answer
    selects the rest ([Await]), and the end ([Return]).  A continuation
    keeps the values it closed over, as the JavaScript closure does. *)

Section Async.

Variables Action Request Answer : Type.

Inductive Proc : Type :=
| Return
| Do (a : Action) (k : Proc)
| Await (rq : Request) (k : Answer -> Proc).

(** The requests one invocation sends when the network gives [answers],
    in order; an invocation whose answer has not arrived stays suspended. *)
Fixpoint issued (p : Proc) (answers : list Answer) : list Request :=
  match p with
  | Return => []
  | Do _ k => issued k answers
  | Await rq k =>
      rq :: match answers with
            | [] => []
            | r :: rest => issued (k r) rest
            end
  end.

(** The synchronous effects of that invocation, in order. *)
Fixpoint performed (p : Proc) (answers : list Answer) : list Action :=
  match p with
  | Return => []
  | Do a k => a :: performed k answers
  | Await _ k =>
      match answers with
      | [] => []
      | r :: rest => performed (k r) rest
      end
  end.

End Async.

Arguments Return {Action Request Answer}.
Arguments Do {Action Request Answer} a k.
Arguments Await {Action Request Answer} rq k.
Arguments issued {Action Request Answer} p answers.
Arguments performed {Action Request Answer} p answers.

(** What the axios calls of the source read from a rejection:
    [error.response?.status], [error.response?.data?.error?.message] and
    [error.message]. *)
Record ApiError := mkApiError {
  response_status : option Z;
  response_data_error_message : option string;
  message : string
}.

Inductive Reply (Data : Type) : Type :=
| Resolved (data : Data)
| Rejected (e : ApiError).

Arguments Resolved {Data} data.
Arguments Rejected {Data} e.

(** [error.response?.status === 401] *)
Definition is_401 (e : ApiError) : bool :=
  match response_status e with
  | Some n => Z.eqb n 401
  | None => false
  end.

(** The [status] that [useSession] reports. *)
Inductive Status := loading | authenticated | unauthenticated.

(** [status === 'authenticated'] *)
Definition is_authenticated (st : Status) : bool :=
  match st with
  | authenticated => true
  | _ => false
  end.

(* ================================================================== *)
(** ** The playlist list of the home page *)

Module Home.

Record Playlist := mkPlaylist {
  id : string;
  name : string;
  tracks_total : Z
}.

Inductive Action :=
| setPlaylists (l : list Playlist)
| setIsLoadingPlaylists (b : bool)
| setApiError (e : option string)
| signOut.

(** [GET /me/playlists] with the bearer token. *)
Inductive Request :=
| GetPlaylists (token : string).

Definition Task := Proc Action Request (Reply (list Playlist)).

(** [fetchPlaylists], closed over [status] and [session] of the render. *)
Definition fetchPlaylists (status : Status) (session : option Auth.Session) : Task :=
  let accessToken :=
    match session with
    | Some se => Auth.s_accessToken se
    | None => None
    end in
  let session_error :=
    match session with
    | Some se => Auth.s_error se
    | None => None
    end in
  if negb (is_authenticated status) || negb (truthy accessToken) then
    Do (setPlaylists []) Return
  else
    Do (setIsLoadingPlaylists true) (
    Do (setApiError None) (
    Await (GetPlaylists (str accessToken)) (fun response =>
      match response with
      | Resolved items =>
          Do (setPlaylists items) (
          Do (setIsLoadingPlaylists false) Return)
      | Rejected err =>
          Do (setApiError (Some "Failed to load playlists. Please try again.")) (
          if is_401 err then
            if is_str session_error Auth.RefreshAccessTokenError then
              Do (setApiError (Some "Your session has expired. Please log in again.")) (
              Do signOut (
              Do (setIsLoadingPlaylists false) Return))
            else
              Do signOut (
              Do (setIsLoadingPlaylists false) Return)
          else
            Do (setIsLoadingPlaylists false) Return)
      end))).

(** *** Scenarios and predicates of the properties below *)

(** [session?.accessToken] *)
Definition token_of (session : option Auth.Session) : option string :=
  match session with
  | Some se => Auth.s_accessToken se
  | None => None
  end.

(** The session of a signed-in user. *)
Definition sample_session : Auth.Session :=
  {| Auth.s_accessToken := Some "access-1";
     Auth.s_error := None;
     Auth.s_user := None |}.

(** A rejection with HTTP status 401. *)
Definition unauthorized : ApiError :=
  {| response_status := Some 401%Z;
     response_data_error_message := Some "The access token expired";
     message := "Request failed with status code 401" |}.

End Home.

(* ================================================================== *)
(** ** The player component

    The component's [useState] values, its two refs, the two globals of
    [window] it touches and the objects outside it (the SDK's player
    instances, the requests in flight, the calls made) form one [State].
    React renders again after every update, so a function the render
    creates ([playTrack], [togglePlayPause], ...) reads the state it was
    rendered for; a closure created inside an effect keeps the values of
    the render in which the effect ran, and those are explicit here
    ([Closure]). *)

Module Player.

Definition Handle := nat.

(** [Spotify.Track], with the fields the component reads. *)
Record Track := mkTrack {
  id : string;
  name : string;
  uri : option string
}.

(** The value of [item.track] in an answer of the tracks endpoint. *)
Inductive JsTrack :=
| undefined
| null
| object (t : Track).

Record Item := mkItem {
  track : JsTrack
}.

(** [Boolean(v)] on such a value: an object is truthy, [null] and
    [undefined] are not. *)
Definition Boolean (v : JsTrack) : bool :=
  match v with
  | object _ => true
  | null | undefined => false
  end.

(** [Spotify.PlaybackState] *)
Record PlayingRestrictions := mkRestrictions {
  reason : option string
}.

Record Disallows := mkDisallows {
  playing_restrictions : option PlayingRestrictions
}.

Record PlaybackState := mkPlaybackState {
  paused : bool;
  current_track : Track;
  disallows : option Disallows
}.

Definition premium_required_message : string :=
  "Spotify Premium required for playback.".

(** [state.disallows?.playing_restrictions &&
     state.disallows.playing_restrictions.reason === 'PREMIUM_REQUIRED'] *)
Definition premium_required (state : PlaybackState) : bool :=
  match disallows state with
  | Some d =>
      match playing_restrictions d with
      | Some r => is_str (reason r) "PREMIUM_REQUIRED"
      | None => false
      end
  | None => false
  end.

(** The three calls to the Web API. *)
Inductive Request :=
| GetPlaylistTracks (playlistId token : string) (limit : Z)
| TransferPlayback (device token : string)
| PlayOnDevice (device trackUri token : string).

Definition Answer := Reply (list Item).

(** The updates an [async] function of the component makes. *)
Inductive Action :=
| setTracks (l : list JsTrack)
| setIsLoadingTracks (b : bool)
| setPlaybackError (e : option string)
| signOut.

Definition Task := Proc Action Request Answer.

(** What leaves the component. *)
Inductive Effect :=
| Http (rq : Request)
| SignOut
| connect (h : Handle)
| disconnect (h : Handle)
| togglePlay (h : Handle)
| nextTrack (h : Handle)
| previousTrack (h : Handle)
| OAuthToken (h : Handle) (token : string)
| onTrackChange (t : option Track)
| onPlaybackStateChange (st : option PlaybackState).

(** The values an [initializeSpotifyPlayer] closure (and the cleanup
    and listeners created with it) captured from its render, and the
    identity of the closure. *)
Record Closure := mkClosure {
  cl_id : nat;
  cl_player : option Handle;
  cl_playbackError : option string
}.

(** A [Spotify.Player] instance: whether [connect()] was called with no
    [disconnect()] since, and the closure its listeners belong to. *)
Record Instance := mkInstance {
  connected : bool;
  listeners : Closure
}.

Record State := mkState {
  (* props and session *)
  selectedPlaylistId : option string;
  status : Status;
  accessToken : option string;
  (* useState *)
  player : option Handle;
  isPaused : bool;
  currentTrack : option Track;
  deviceId : option string;
  playbackError : option string;
  tracks : list JsTrack;
  isLoadingTracks : bool;
  playerLoading : bool;
  (* useRef *)
  accessTokenRef : option string;
  playerInitialized : bool;
  (* window *)
  window_Spotify : bool;
  window_onSpotifyWebPlaybackSDKReady : option Closure;
  (* the cleanup the last run of the SDK effect returned *)
  cleanup : option Closure;
  closures : nat;
  (* outside the component *)
  instances : list Instance;
  pending : list (Request * (Answer -> Task));
  log : list Effect
}.

Definition set_selectedPlaylistId (v : option string) (s : State) : State :=
  let '(mkState x0 x1 x2 x3 x4 x5 x6 x7 x8 x9 x10 x11 x12 x13 x14 x15 x16 x17 x18 x19) := s in
  mkState v x1 x2 x3 x4 x5 x6 x7 x8 x9 x10 x11 x12 x13 x14 x15 x16 x17 x18 x19.

Definition set_status (v : Status) (s : State) : State :=
  let '(mkState x0 x1 x2 x3 x4 x5 x6 x7 x8 x9 x10 x11 x12 x13 x14 x15 x16 x17 x18 x19) := s in
  mkState x0 v x2 x3 x4 x5 x6 x7 x8 x9 x10 x11 x12 x13 x14 x15 x16 x17 x18 x19.

Definition set_accessToken (v : option string) (s : State) : State :=
  let '(mkState x0 x1 x2 x3 x4 x5 x6 x7 x8 x9 x10 x11 x12 x13 x14 x15 x16 x17 x18 x19) := s in
  mkState x0 x1 v x3 x4 x5 x6 x7 x8 x9 x10 x11 x12 x13 x14 x15 x16 x17 x18 x19.

Definition set_player (v : option Handle) (s : State) : State :=
  let '(mkState x0 x1 x2 x3 x4 x5 x6 x7 x8 x9 x10 x11 x12 x13 x14 x15 x16 x17 x18 x19) := s in
  mkState x0 x1 x2 v x4 x5 x6 x7 x8 x9 x10 x11 x12 x13 x14 x15 x16 x17 x18 x19.

Definition set_isPaused (v : bool) (s : State) : State :=
  let '(mkState x0 x1 x2 x3 x4 x5 x6 x7 x8 x9 x10 x11 x12 x13 x14 x15 x16 x17 x18 x19) := s in
  mkState x0 x1 x2 x3 v x5 x6 x7 x8 x9 x10 x11 x12 x13 x14 x15 x16 x17 x18 x19.

Definition set_currentTrack (v : option Track) (s : State) : State :=
  let '(mkState x0 x1 x2 x3 x4 x5 x6 x7 x8 x9 x10 x11 x12 x13 x14 x15 x16 x17 x18 x19) := s in
  mkState x0 x1 x2 x3 x4 v x6 x7 x8 x9 x10 x11 x12 x13 x14 x15 x16 x17 x18 x19.

Definition set_deviceId (v : option string) (s : State) : State :=
  let '(mkState x0 x1 x2 x3 x4 x5 x6 x7 x8 x9 x10 x11 x12 x13 x14 x15 x16 x17 x18 x19) := s in
  mkState x0 x1 x2 x3 x4 x5 v x7 x8 x9 x10 x11 x12 x13 x14 x15 x16 x17 x18 x19.

Definition set_playbackError (v : option string) (s : State) : State :=
  let '(mkState x0 x1 x2 x3 x4 x5 x6 x7 x8 x9 x10 x11 x12 x13 x14 x15 x16 x17 x18 x19) := s in
  mkState x0 x1 x2 x3 x4 x5 x6 v x8 x9 x10 x11 x12 x13 x14 x15 x16 x17 x18 x19.

Definition set_tracks (v : list JsTrack) (s : State) : State :=
  let '(mkState x0 x1 x2 x3 x4 x5 x6 x7 x8 x9 x10 x11 x12 x13 x14 x15 x16 x17 x18 x19) := s in
  mkState x0 x1 x2 x3 x4 x5 x6 x7 v x9 x10 x11 x12 x13 x14 x15 x16 x17 x18 x19.

Definition set_isLoadingTracks (v : bool) (s : State) : State :=
  let '(mkState x0 x1 x2 x3 x4 x5 x6 x7 x8 x9 x10 x11 x12 x13 x14 x15 x16 x17 x18 x19) := s in
  mkState x0 x1 x2 x3 x4 x5 x6 x7 x8 v x10 x11 x12 x13 x14 x15 x16 x17 x18 x19.

Definition set_playerLoading (v : bool) (s : State) : State :=
  let '(mkState x0 x1 x2 x3 x4 x5 x6 x7 x8 x9 x10 x11 x12 x13 x14 x15 x16 x17 x18 x19) := s in
  mkState x0 x1 x2 x3 x4 x5 x6 x7 x8 x9 v x11 x12 x13 x14 x15 x16 x17 x18 x19.

Definition set_accessTokenRef (v : option string) (s : State) : State :=
  let '(mkState x0 x1 x2 x3 x4 x5 x6 x7 x8 x9 x10 x11 x12 x13 x14 x15 x16 x17 x18 x19) := s in
  mkState x0 x1 x2 x3 x4 x5 x6 x7 x8 x9 x10 v x12 x13 x14 x15 x16 x17 x18 x19.

Definition set_playerInitialized (v : bool) (s : State) : State :=
  let '(mkState x0 x1 x2 x3 x4 x5 x6 x7 x8 x9 x10 x11 x12 x13 x14 x15 x16 x17 x18 x19) := s in
  mkState x0 x1 x2 x3 x4 x5 x6 x7 x8 x9 x10 x11 v x13 x14 x15 x16 x17 x18 x19.

Definition set_window_Spotify (v : bool) (s : State) : State :=
  let '(mkState x0 x1 x2 x3 x4 x5 x6 x7 x8 x9 x10 x11 x12 x13 x14 x15 x16 x17 x18 x19) := s in
  mkState x0 x1 x2 x3 x4 x5 x6 x7 x8 x9 x10 x11 x12 v x14 x15 x16 x17 x18 x19.

Definition set_window_onSpotifyWebPlaybackSDKReady (v : option Closure) (s : State) : State :=
  let '(mkState x0 x1 x2 x3 x4 x5 x6 x7 x8 x9 x10 x11 x12 x13 x14 x15 x16 x17 x18 x19) := s in
  mkState x0 x1 x2 x3 x4 x5 x6 x7 x8 x9 x10 x11 x12 x13 v x15 x16 x17 x18 x19.

Definition set_cleanup (v : option Closure) (s : State) : State :=
  let '(mkState x0 x1 x2 x3 x4 x5 x6 x7 x8 x9 x10 x11 x12 x13 x14 x15 x16 x17 x18 x19) := s in
  mkState x0 x1 x2 x3 x4 x5 x6 x7 x8 x9 x10 x11 x12 x13 x14 v x16 x17 x18 x19.

Definition set_closures (v : nat) (s : State) : State :=
  let '(mkState x0 x1 x2 x3 x4 x5 x6 x7 x8 x9 x10 x11 x12 x13 x14 x15 x16 x17 x18 x19) := s in
  mkState x0 x1 x2 x3 x4 x5 x6 x7 x8 x9 x10 x11 x12 x13 x14 x15 v x17 x18 x19.

Definition set_instances (v : list Instance) (s : State) : State :=
  let '(mkState x0 x1 x2 x3 x4 x5 x6 x7 x8 x9 x10 x11 x12 x13 x14 x15 x16 x17 x18 x19) := s in
  mkState x0 x1 x2 x3 x4 x5 x6 x7 x8 x9 x10 x11 x12 x13 x14 x15 x16 v x18 x19.

Definition set_pending (v : list (Request * (Answer -> Task))) (s : State) : State :=
  let '(mkState x0 x1 x2 x3 x4 x5 x6 x7 x8 x9 x10 x11 x12 x13 x14 x15 x16 x17 x18 x19) := s in
  mkState x0 x1 x2 x3 x4 x5 x6 x7 x8 x9 x10 x11 x12 x13 x14 x15 x16 x17 v x19.

Definition set_log (v : list Effect) (s : State) : State :=
  let '(mkState x0 x1 x2 x3 x4 x5 x6 x7 x8 x9 x10 x11 x12 x13 x14 x15 x16 x17 x18 x19) := s in
  mkState x0 x1 x2 x3 x4 x5 x6 x7 x8 x9 x10 x11 x12 x13 x14 x15 x16 x17 x18 v.

Definition emit (e : Effect) (s : State) : State :=
  set_log (log s ++ [e]) s.

(** Statements in source order: [s |> f |> g] is [f] then [g]. *)
Notation "s |> f" := (f s) (at level 45, left associativity, only parsing).

(** *** The SDK's player instances *)

Fixpoint set_connected (h : Handle) (b : bool) (l : list Instance) : list Instance :=
  match l, h with
  | [], _ => []
  | i :: l', O => {| connected := b; listeners := listeners i |} :: l'
  | i :: l', S h' => i :: set_connected h' b l'
  end.

(** [h.connect()] *)
Definition player_connect (h : Handle) (s : State) : State :=
  s |> set_instances (set_connected h true (instances s)) |> emit (connect h).

(** [h.disconnect()] *)
Definition player_disconnect (h : Handle) (s : State) : State :=
  s |> set_instances (set_connected h false (instances s)) |> emit (disconnect h).

(** The device handles that are live: connected and not disconnected. *)
Definition live_handles (s : State) : nat :=
  List.length (filter connected (instances s)).

(** *** The token ref (first effect) *)

Definition token_effect (r : State) (s : State) : State :=
  if truthy (accessToken r) then s |> set_accessTokenRef (accessToken r)
  else s |> set_accessTokenRef None.

(** *** SDK initialisation (second effect) *)

(** [initializeSpotifyPlayer]; [new window.Spotify.Player] gives the
    next handle, and the seven [addListener] calls attach the closure. *)
Definition initializeSpotifyPlayer (cl : Closure) (s : State) : State :=
  if negb (truthy (accessTokenRef s)) || negb (window_Spotify s) || playerInitialized s
  then s
  else
    let s := s |> set_playerLoading true |> set_playbackError None in
    let s := match cl_player cl with
             | Some p => s |> player_disconnect p |> set_player None
             | None => s
             end in
    let playerInstance := List.length (instances s) in
    s |> set_instances (instances s ++ [{| connected := false; listeners := cl |}])
      |> player_connect playerInstance.

(** The body of the effect, for the render [r], on the current [s]. *)
Definition sdk_effect (r : State) (s : State) : State :=
  if negb (is_authenticated (status r)) || negb (truthy (accessTokenRef s))
     || playerInitialized s
  then
    let s := match player r with
             | Some p =>
                 if negb (is_authenticated (status r))
                 then s |> player_disconnect p |> set_player None
                        |> set_playerLoading false
                 else s
             | None => s
             end in
    s |> set_cleanup None
  else
    let cl := {| cl_id := closures s;
                 cl_player := player r;
                 cl_playbackError := playbackError r |} in
    let s := s |> set_closures (S (closures s)) in
    let s := if window_Spotify s
                && negb (is_some (window_onSpotifyWebPlaybackSDKReady s))
             then s |> set_window_onSpotifyWebPlaybackSDKReady (Some cl)
             else s in
    let s := if window_Spotify s && truthy (accessTokenRef s)
                && negb (playerInitialized s)
             then initializeSpotifyPlayer cl s
             else s in
    s |> set_cleanup (Some cl).

(** The cleanup function that run of the effect returned. *)
Definition sdk_cleanup (cl : Closure) (s : State) : State :=
  let s := match cl_player cl with
           | Some p => s |> player_disconnect p |> set_player None
           | None => s
           end in
  let s := s |> set_deviceId None
             |> set_currentTrack None
             |> emit (onTrackChange None)
             |> emit (onPlaybackStateChange None)
             |> set_playerInitialized false in
  match window_onSpotifyWebPlaybackSDKReady s with
  | Some w =>
      if Nat.eqb (cl_id w) (cl_id cl)
      then s |> set_window_onSpotifyWebPlaybackSDKReady None
      else s
  | None => s
  end.

Definition run_cleanup (s : State) : State :=
  match cleanup s with
  | Some cl => sdk_cleanup cl s
  | None => s
  end.

(** React runs the effect again (a dependency changed): the previous
    cleanup, then the body for the new render. *)
Definition rerun_sdk_effect (s : State) : State :=
  sdk_effect s (run_cleanup s).

(** *** The listeners of a player instance *)

(** [getOAuthToken] *)
Definition getOAuthToken (h : Handle) (s : State) : State :=
  if truthy (accessTokenRef s) then s |> emit (OAuthToken h (str (accessTokenRef s)))
  else s |> set_playbackError (Some "Authentication required to initialize player.")
         |> emit SignOut.

Definition on_ready (playerInstance : Handle) (device_id : string) (s : State) : State :=
  s |> set_deviceId (Some device_id)
    |> set_player (Some playerInstance)
    |> set_playerLoading false
    |> set_playerInitialized true.

Definition on_not_ready (device_id : string) (s : State) : State :=
  s |> set_deviceId None
    |> set_playerLoading false
    |> set_playbackError
         (Some "Spotify device is offline or unavailable. Ensure Spotify is running.").

(** [captured] is the [playbackError] of the render the listener was
    created in. *)
Definition on_player_state_changed (captured : option string)
    (state : option PlaybackState) (s : State) : State :=
  match state with
  | None => s
  | Some st =>
      let s := s |> set_isPaused (paused st)
                 |> set_currentTrack (Some (current_track st))
                 |> emit (onTrackChange (Some (current_track st)))
                 |> emit (onPlaybackStateChange (Some st)) in
      if premium_required st
      then s |> set_playbackError (Some premium_required_message)
      else if is_str captured premium_required_message
           then s |> set_playbackError None
           else s
  end.

Definition on_initialization_error (message : string) (s : State) : State :=
  s |> set_playbackError (Some ("Initialization Error: " ++ message ++ "."))
    |> set_playerLoading false
    |> set_playerInitialized false.

Definition on_authentication_error (message : string) (s : State) : State :=
  s |> set_playbackError
         (Some ("Authentication Error: " ++ message ++ ". Please re-login."))
    |> set_playerLoading false
    |> set_playerInitialized false
    |> emit SignOut.

Definition on_account_error (message : string) (s : State) : State :=
  s |> set_playbackError (Some ("Account Error: " ++ message ++ "."))
    |> set_playerLoading false
    |> set_playerInitialized false.

Definition on_playback_error (message : string) (s : State) : State :=
  s |> set_playbackError (Some ("Playback Error: " ++ message ++ "."))
    |> set_playerLoading false.

(** *** Tracks of the selected playlist (third effect) *)

(** The rest of [fetchPlaylistTracks] after its [await]: [try] on a
    resolved call, [catch] on a rejected one, [finally] in both. *)
Definition fetchPlaylistTracks_resume (response : Answer) : Task :=
  match response with
  | Resolved items =>
      Do (setTracks (filter Boolean (map track items))) (
      Do (setIsLoadingTracks false) Return)
  | Rejected error =>
      Do (setPlaybackError (Some "Failed to load playlist tracks. Please try again.")) (
      if is_401 error then
        Do signOut (
        Do (setIsLoadingTracks false) Return)
      else
        Do (setIsLoadingTracks false) Return)
  end.

Definition fetchPlaylistTracks (r : State) : Task :=
  if negb (truthy (selectedPlaylistId r)) || negb (truthy (accessToken r)) then
    Do (setTracks []) Return
  else
    Do (setIsLoadingTracks true) (
    Do (setPlaybackError None) (
    Await (GetPlaylistTracks (str (selectedPlaylistId r)) (str (accessToken r)) 50)
          fetchPlaylistTracks_resume)).

(** *** Playback controls *)

(** The [catch] block of [playTrack]. *)
Definition playTrack_catch (error : ApiError) : Task :=
  let detail :=
    if truthy (response_data_error_message error)
    then str (response_data_error_message error)
    else message error in
  Do (setPlaybackError (Some ("Failed to play track: " ++ detail ++ "."))) (
  if is_401 error then Do signOut Return else Return).

Definition playTrack (r : State) (trackUri : string) : Task :=
  if negb (is_some (player r)) || negb (truthy (deviceId r))
     || negb (truthy (accessToken r)) then
    Do (setPlaybackError (Some "Player not ready or not authenticated.")) Return
  else if is_str (playbackError r) premium_required_message then
    Return
  else
    (* Step 1: transfer playback to the device of the SDK *)
    Await (TransferPlayback (str (deviceId r)) (str (accessToken r))) (fun step1 =>
      match step1 with
      | Rejected error => playTrack_catch error
      | Resolved _ =>
          (* Step 2: play the track on that device *)
          Await (PlayOnDevice (str (deviceId r)) trackUri (str (accessToken r)))
            (fun step2 =>
               match step2 with
               | Rejected error => playTrack_catch error
               | Resolved _ => Return
               end)
      end).

Definition togglePlayPause (s : State) : State :=
  match player s with
  | Some p => s |> emit (togglePlay p)
  | None => s
  end.

Definition skipNext (s : State) : State :=
  match player s with
  | Some p => s |> emit (nextTrack p)
  | None => s
  end.

Definition skipPrevious (s : State) : State :=
  match player s with
  | Some p => s |> emit (previousTrack p)
  | None => s
  end.

(** *** What the component renders *)

Inductive View :=
| LoginPrompt          (* "Please log in to Spotify to use the player." *)
| Initializing         (* "Initializing Spotify Player..." *)
| ConnectionFailed     (* "... connection failed or device not ready." *)
| Controls.            (* current track, transport buttons, track list *)

Definition render (s : State) : View :=
  if negb (is_authenticated (status s)) then LoginPrompt
  else if playerLoading s then Initializing
  else if negb (is_some (player s)) || negb (truthy (deviceId s)) then ConnectionFailed
  else Controls.

(** The component's own test of a device being ready: the guard of the
    last view and of [playTrack]. *)
Definition device_ready (s : State) : bool :=
  is_some (player s) && truthy (deviceId s).

(** *** Running the component *)

Definition perform (a : Action) (s : State) : State :=
  match a with
  | setTracks l => s |> set_tracks l
  | setIsLoadingTracks b => s |> set_isLoadingTracks b
  | setPlaybackError e => s |> set_playbackError e
  | signOut => s |> emit SignOut
  end.

(** Run an [async] function up to its next [await]: the request goes
    out and the continuation waits for the answer. *)
Fixpoint exec (p : Task) (s : State) : State :=
  match p with
  | Return => s
  | Do a k => exec k (perform a s)
  | Await rq k => s |> emit (Http rq) |> set_pending (pending s ++ [(rq, k)])
  end.

Fixpoint remove_nth {A : Type} (i : nat) (l : list A) : list A :=
  match l, i with
  | [], _ => []
  | _ :: l', O => l'
  | x :: l', S i' => x :: remove_nth i' l'
  end.

(** The answer to the [i]-th request in flight arrives. *)
Definition deliver (i : nat) (response : Answer) (s : State) : State :=
  match nth_error (pending s) i with
  | Some (_, k) => exec (k response) (s |> set_pending (remove_nth i (pending s)))
  | None => s
  end.

(** [Object.is] on the dependencies of the effects. *)
Definition same_string (a b : option string) : bool :=
  match a, b with
  | Some x, Some y => String.eqb x y
  | None, None => true
  | _, _ => false
  end.

Definition same_status (a b : Status) : bool :=
  match a, b with
  | loading, loading | authenticated, authenticated
  | unauthenticated, unauthenticated => true
  | _, _ => false
  end.

(** The state of the first render. *)
Definition initial (st : Status) (token : option string) (sdk_loaded : bool) : State :=
  {| selectedPlaylistId := None;
     status := st;
     accessToken := token;
     player := None;
     isPaused := true;
     currentTrack := None;
     deviceId := None;
     playbackError := None;
     tracks := [];
     isLoadingTracks := false;
     playerLoading := true;
     accessTokenRef := None;
     playerInitialized := false;
     window_Spotify := sdk_loaded;
     window_onSpotifyWebPlaybackSDKReady := None;
     cleanup := None;
     closures := 0;
     instances := [];
     pending := [];
     log := [] |}.

(** After the first render the three effects run in source order. *)
Definition mount (s : State) : State :=
  s |> token_effect s |> sdk_effect s |> exec (fetchPlaylistTracks s).

(** The parent passes another [selectedPlaylistId]: the third effect
    runs again when the value differs. *)
Definition select_playlist (playlistId : string) (s : State) : State :=
  if same_string (selectedPlaylistId s) (Some playlistId) then s
  else
    let r := s |> set_selectedPlaylistId (Some playlistId) in
    r |> exec (fetchPlaylistTracks r).

(** [useSession] reports another status or token: the cleanup of every
    effect that depends on what changed, then their bodies in source
    order. *)
Definition session_change (st : Status) (token : option string) (s : State) : State :=
  let token_changed := negb (same_string (accessToken s) token) in
  let sdk_changed := token_changed || negb (same_status (status s) st) in
  let r := s |> set_status st |> set_accessToken token in
  let s := if sdk_changed then run_cleanup r else r in
  let s := if token_changed then token_effect r s else s in
  let s := if sdk_changed then sdk_effect r s else s in
  if token_changed then exec (fetchPlaylistTracks r) s else s.

(** The SDK script has loaded: it defines [window.Spotify] and calls
    the global callback when one is registered. *)
Definition sdk_script_loaded (s : State) : State :=
  let s := s |> set_window_Spotify true in
  match window_onSpotifyWebPlaybackSDKReady s with
  | Some cl => initializeSpotifyPlayer cl s
  | None => s
  end.

(** What can happen to the component.  When React runs the SDK effect
    again because [player] changed is an event of its own
    ([RerunSdkEffect]), so a trace fixes the schedule. *)
Inductive Event :=
| Mount
| SelectPlaylist (playlistId : string)
| SessionChange (st : Status) (token : option string)
| SdkScriptLoaded
| RerunSdkEffect
| TokenRequested (h : Handle)
| Ready (h : Handle) (device_id : string)
| NotReady (h : Handle) (device_id : string)
| PlayerStateChanged (h : Handle) (state : option PlaybackState)
| InitializationError (h : Handle) (message : string)
| AuthenticationError (h : Handle) (message : string)
| AccountError (h : Handle) (message : string)
| PlaybackError (h : Handle) (message : string)
| Arrives (i : nat) (response : Answer)
| ClickTrack (trackUri : string)
| ClickPlayPause
| ClickNext
| ClickPrevious.

(** An event of the SDK reaches the listeners of instance [h]. *)
Definition listener (h : Handle) (f : Closure -> State -> State) (s : State) : State :=
  match nth_error (instances s) h with
  | Some i => f (listeners i) s
  | None => s
  end.

(** The handler of an event, run on the current state.  [step] runs a
    click handler whether or not the element that carries it is on the
    page; which clicks the rendered page can deliver is [offered] below,
    and [ui_step] is [step] behind that test. *)
Definition step (e : Event) (s : State) : State :=
  match e with
  | Mount => mount s
  | SelectPlaylist playlistId => select_playlist playlistId s
  | SessionChange st token => session_change st token s
  | SdkScriptLoaded => sdk_script_loaded s
  | RerunSdkEffect => rerun_sdk_effect s
  | TokenRequested h => listener h (fun _ => getOAuthToken h) s
  | Ready h device_id => listener h (fun _ => on_ready h device_id) s
  | NotReady h device_id => listener h (fun _ => on_not_ready device_id) s
  | PlayerStateChanged h state =>
      listener h (fun cl => on_player_state_changed (cl_playbackError cl) state) s
  | InitializationError h message =>
      listener h (fun _ => on_initialization_error message) s
  | AuthenticationError h message =>
      listener h (fun _ => on_authentication_error message) s
  | AccountError h message => listener h (fun _ => on_account_error message) s
  | PlaybackError h message => listener h (fun _ => on_playback_error message) s
  | Arrives i response => deliver i response s
  | ClickTrack trackUri => exec (playTrack s trackUri) s
  | ClickPlayPause => togglePlayPause s
  | ClickNext => skipNext s
  | ClickPrevious => skipPrevious s
  end.

Fixpoint run (es : list Event) (s : State) : State :=
  match es with
  | [] => s
  | e :: es' => run es' (step e s)
  end.

(** [track.uri] of a list entry is the uri clicked. *)
Definition has_uri (trackUri : string) (v : JsTrack) : bool :=
  match v with
  | object t => same_string (uri t) (Some trackUri)
  | null | undefined => false
  end.

(** The events the rendered page can deliver.  The three transport
    buttons and the track list belong to the last view only (after the
    returns for [status], [playerLoading] and [!player || !deviceId]);
    the buttons carry [disabled] while the Premium message stands; the
    list entries exist while no fetch is loading and carry the uri of
    their track.  Events of the session, the SDK and the network do not
    depend on the page. *)
Definition offered (e : Event) (s : State) : bool :=
  match e with
  | ClickPlayPause | ClickNext | ClickPrevious =>
      match render s with
      | Controls => negb (is_str (playbackError s) premium_required_message)
      | _ => false
      end
  | ClickTrack trackUri =>
      match render s with
      | Controls => negb (isLoadingTracks s) && existsb (has_uri trackUri) (tracks s)
      | _ => false
      end
  | _ => true
  end.

(** An event as the page delivers it: a click on an element that is
    absent or disabled runs no handler. *)
Definition ui_step (e : Event) (s : State) : State :=
  if offered e s then step e s else s.

(** The Web API requests among the calls made, in order. *)
Fixpoint http (l : list Effect) : list Request :=
  match l with
  | [] => []
  | Http rq :: l' => rq :: http l'
  | _ :: l' => http l'
  end.

(** *** Scenarios and predicates of the properties below *)

(** A track object of the Web API. *)
Definition song (n : string) : Track :=
  {| id := n; name := n; uri := Some ("spotify:track:" ++ n)%string |}.

(** A signed-in component whose SDK script has not loaded yet. *)
Definition browsing : State := mount (initial authenticated (Some "tok") false).

(** The answers for playlists P (with a local file, whose track is
    [null]) and Q. *)
Definition answer_P : list Item :=
  [mkItem (object (song "p1")); mkItem null; mkItem (object (song "p2"))].

Definition answer_Q : list Item := [mkItem (object (song "q1"))].

(** The user picks playlist P and then playlist Q before P's answer is
    there; Q's answer arrives first and is shown. *)
Definition showing_Q : State :=
  run [SelectPlaylist "P"; SelectPlaylist "Q"; Arrives 1 (Resolved answer_Q)] browsing.

(** What running a task to its next [await] adds to the world. *)
Definition awaiting (p : Task) : list (Request * (Answer -> Task)) :=
  (fix go (p : Task) :=
     match p with
     | Return => []
     | Do _ k => go k
     | Await rq k => [(rq, k)]
     end) p.

(** A signed-in component whose SDK script is loaded: mounting starts
    the first connect attempt (instance 0). *)
Definition connecting : State := mount (initial authenticated (Some "tok") true).

(** Instance 0 has reported [ready] with device id "dev". *)
Definition ready : State := step (Ready 0 "dev") connecting.

(** The device reported [ready] and then [not_ready]: the handle is
    kept, the device id is gone. *)
Definition offline : State := step (NotReady 0 "dev") ready.

(** The call a control makes on the handle it holds. *)
Definition transport (e : Event) (h : Handle) : list Effect :=
  match e with
  | ClickPlayPause => [togglePlay h]
  | ClickNext => [nextTrack h]
  | ClickPrevious => [previousTrack h]
  | _ => []
  end.

(** A snapshot that reports the restriction, and one without any. *)
Definition premium_snapshot : PlaybackState :=
  {| paused := true;
     current_track := song "s1";
     disallows :=
       Some {| playing_restrictions :=
                 Some {| reason := Some "PREMIUM_REQUIRED" |} |} |}.

(** The ready device, with playlist P fetched and its tracks listed. *)
Definition listening : State :=
  run [SelectPlaylist "P"; Arrives 0 (Resolved answer_P)] ready.

(** The device reports the restriction. *)
Definition restricted : State :=
  step (PlayerStateChanged 0 (Some premium_snapshot)) listening.

Definition unrestricted_snapshot : PlaybackState :=
  {| paused := false; current_track := song "s1"; disallows := None |}.

(** The events that leave the restriction in place: track selections,
    transport clicks, and snapshots that are empty or report the
    restriction again. *)
Definition keeps_restriction (e : Event) : bool :=
  match e with
  | ClickTrack _ | ClickPlayPause | ClickNext | ClickPrevious => true
  | PlayerStateChanged _ None => true
  | PlayerStateChanged _ (Some st) => premium_required st
  | _ => false
  end.

(** The first guard of [playTrack]. *)
Definition not_ready (s : State) : bool :=
  negb (is_some (player s)) || negb (truthy (deviceId s))
  || negb (truthy (accessToken s)).

(** [playTrack] returns before its first request. *)
Definition rejecting (s : State) : Prop :=
  not_ready s = true \/ playbackError s = Some premium_required_message.

(** [s'] has the session, the requests in flight and the requests sent
    of [s]. *)
Record untouched (s s' : State) : Prop := mk_untouched {
  keeps_status : status s' = status s;
  keeps_token : accessToken s' = accessToken s;
  keeps_pending : pending s' = pending s;
  keeps_http : http (log s') = http (log s)
}.

(** An effect that is not a Web API request. *)
Definition silent (e : Effect) : bool :=
  match e with
  | Http _ => false
  | _ => true
  end.

(** A request in flight whose continuation sends nothing more. *)
Definition quiet (w : Request * (Answer -> Task)) : Prop :=
  forall response, issued (snd w response) [] = [].

(** The session has ended and nothing in flight will send more. *)
Definition signed_out (s : State) : Prop :=
  status s = unauthenticated
  /\ accessToken s = None
  /\ Forall quiet (pending s).

(** Every event but a change of session. *)
Definition same_session (e : Event) : bool :=
  match e with
  | SessionChange _ _ => false
  | _ => true
  end.

(** The views that display [playbackError]. *)
Definition shows_error (v : View) : bool :=
  match v with
  | ConnectionFailed | Controls => true
  | LoginPrompt | Initializing => false
  end.

(** The user has clicked a listed track: the transfer is in flight. *)
Definition transferring : State := step (ClickTrack "spotify:track:p1") listening.

(** The ref holds the session's token, or [null] when the session has
    none. *)
Definition ref_synced (s : State) : Prop :=
  accessTokenRef s = if truthy (accessToken s) then accessToken s else None.

(** Instance [h] reports the snapshots [sts], one event each. *)
Definition snapshots (h : Handle) (sts : list PlaybackState) : list Event :=
  map (fun st => PlayerStateChanged h (Some st)) sts.

(** The two calls to the parent for each snapshot, in order. *)
Definition forwarded (sts : list PlaybackState) : list Effect :=
  flat_map (fun st => [onTrackChange (Some (current_track st));
                       onPlaybackStateChange (Some st)]) sts.

(** [error.response?.data?.error?.message || error.message] *)
Definition detail (error : ApiError) : string :=
  if truthy (response_data_error_message error)
  then str (response_data_error_message error)
  else message error.

(** A rejected tracks request with status 401. *)
Definition unauthorized_tracks : ApiError :=
  {| response_status := Some 401%Z;
     response_data_error_message := Some "The access token expired";
     message := "Request failed with status code 401" |}.

(** A rejection by the Web API with its own message. *)
Definition forbidden : ApiError :=
  {| response_status := Some 403%Z;
     response_data_error_message := Some "Player command failed: Premium required";
     message := "Request failed with status code 403" |}.

(** [s'] has the token ref and the session token of [s]. *)
Definition tokens_kept (s s' : State) : Prop :=
  accessTokenRef s' = accessTokenRef s /\ accessToken s' = accessToken s.

(** [s'] has the session status and the session token of [s]. *)
Definition session_kept (s s' : State) : Prop :=
  status s' = status s /\ accessToken s' = accessToken s.

End Player.

(* ================================================================== *)
(** * Properties *)

Lemma truthy_Some (o : option string) : truthy o = true -> o = Some (str o).
Proof. destruct o; simpl; [reflexivity | discriminate]. Qed.

Lemma is_str_eq (o : option string) (lit : string) :
  is_str o lit = true <-> o = Some lit.
Proof.
  destruct o as [s|]; simpl.
  - rewrite String.eqb_eq. split; [now intros -> | now intros [= ->]].
  - split; discriminate.
Qed.

Lemma is_str_refl (lit : string) : is_str (Some lit) lit = true.
Proof. apply String.eqb_refl. Qed.

(** ** The credential *)

Module AuthSpec.

Import Auth.
Local Open Scope Z_scope.

Section Refresh.

Variable provider : RefreshRequest -> FetchOutcome.
Variables now later : Z.
Variable token : JWT.

(** Outside the initial sign-in, the callback's [account] and [user]
    are not both present. *)
Variables (account : option Account) (usr : option User).
Hypothesis not_sign_in : account = None \/ usr = None.

Lemma jwt_not_sign_in :
  jwt provider now later token account usr =
  if isValid now token then (token, [])
  else match provider {| rq_refresh_token := refreshToken token |} with
       | Ok body =>
           (refreshed later token body,
            [{| rq_refresh_token := refreshToken token |}])
       | NotOk | Threw =>
           (with_error token, [{| rq_refresh_token := refreshToken token |}])
       end.
Proof.
  unfold jwt.
  destruct not_sign_in as [-> | ->]; [reflexivity |].
  destruct account; reflexivity.
Qed.

(** One invocation sends at most one refresh request. *)
Lemma jwt_single_attempt :
  (List.length (snd (jwt provider now later token account usr)) <= 1)%nat.
Proof.
  rewrite jwt_not_sign_in.
  destruct (isValid now token); simpl; [lia |].
  destruct (provider _); simpl; lia.
Qed.

End Refresh.

Lemma isValid_spec (now e : Z) (token : JWT) :
  expiresAt token = Some e ->
  isValid now token = negb (e =? 0) && (now <? e * 1000).
Proof. intros He. unfold isValid. rewrite He. reflexivity. Qed.

(** C6.  For a credential with expiry [e] (seconds) and a clock reading
    [now] (milliseconds since the epoch, so not negative), the validity
    test of the [jwt] callback holds exactly when [now] is strictly
    before the expiry; at the expiry itself it fails, and the callback
    then sends the refresh request. *)
Theorem isValid_iff_before_expiry (now e : Z) (token : JWT) :
  expiresAt token = Some e ->
  0 <= now ->
  (isValid now token = true <-> now < e * 1000)
  /\ isValid (e * 1000) token = false
  /\ forall provider later,
       snd (jwt provider (e * 1000) later token None None)
       = [{| rq_refresh_token := refreshToken token |}].
Proof.
  intros He Hnow.
  assert (Hat : isValid (e * 1000) token = false).
  { rewrite (isValid_spec _ e) by assumption.
    rewrite Z.ltb_irrefl. apply andb_false_r. }
  split; [| split].
  - rewrite (isValid_spec _ e) by assumption.
    rewrite andb_true_iff, negb_true_iff, Z.eqb_neq, Z.ltb_lt.
    split; [tauto | intros H; split; [lia | exact H]].
  - exact Hat.
  - intros provider later.
    rewrite jwt_not_sign_in by (left; reflexivity).
    rewrite Hat. destruct (provider _); reflexivity.
Qed.

Lemma isValid_iff_before_expiry_witness :
  (isValid 1700000000000 sample_token = true <-> 1700000000000 < 1700003600 * 1000)
  /\ isValid (1700003600 * 1000) sample_token = false
  /\ forall provider later,
       snd (jwt provider (1700003600 * 1000) later sample_token None None)
       = [{| rq_refresh_token := refreshToken sample_token |}].
Proof.
  apply (isValid_iff_before_expiry 1700000000000 1700003600 sample_token).
  - reflexivity.
  - lia.
Defined.

(** C10.  When the refresh succeeds and the answer carries no refresh
    token, the new credential keeps the stored refresh token, and takes
    its access token and its expiry from the answer. *)
Theorem refresh_keeps_old_refresh_token
    (provider : RefreshRequest -> FetchOutcome) (now later : Z)
    (token : JWT) (body : RefreshedTokens) :
  isValid now token = false ->
  provider {| rq_refresh_token := refreshToken token |} = Ok body ->
  r_refresh_token body = None ->
  let token' := fst (jwt provider now later token None None) in
  refreshToken token' = refreshToken token
  /\ accessToken token' = r_access_token body
  /\ expiresAt token' = Some (later / 1000 + r_expires_in body)
  /\ user token' = user token.
Proof.
  intros Hexp Hok Hnone token'. subst token'.
  rewrite jwt_not_sign_in by (left; reflexivity).
  rewrite Hexp, Hok. simpl. rewrite Hnone. auto.
Qed.

Lemma refresh_keeps_old_refresh_token_witness :
  let token' :=
    fst (jwt (fun _ => Ok answer_without_refresh_token)
             1700003600000 1700003600250 sample_token None None) in
  refreshToken token' = Some "refresh-1"
  /\ accessToken token' = Some "access-2"
  /\ expiresAt token' = Some (1700003600250 / 1000 + 3600)
  /\ user token' = None.
Proof.
  apply (refresh_keeps_old_refresh_token
           (fun _ => Ok answer_without_refresh_token)
           1700003600000 1700003600250 sample_token
           answer_without_refresh_token);
    reflexivity.
Defined.

(** The claim of C5 as the spec words it fails: after a refresh that
    the provider rejects, the callback still returns the stored access
    token, refresh token and expiry. *)
Lemma refresh_failure_does_not_discard :
  let token' := fst (jwt (fun _ => NotOk) expired_at expired_at sample_token None None) in
  isValid expired_at sample_token = false
  /\ accessToken token' = Some "access-1"
  /\ refreshToken token' = Some "refresh-1"
  /\ expiresAt token' = Some 1700003600
  /\ ~ discarded token'.
Proof.
  cbv zeta. repeat split; try reflexivity.
  intros [H _]. discriminate H.
Qed.

(** C5, amended.  When the refresh is rejected (or the request throws),
    the invocation has sent exactly one refresh request and returns the
    stored credential unchanged, with the error
    [RefreshAccessTokenError] added; the [session] callback exposes
    that error next to the kept access token; and the home page signs
    the user out once its playlist request is answered 401, having sent
    that one request only. *)
Theorem refresh_failure_flags_error
    (provider : RefreshRequest -> FetchOutcome) (now later : Z)
    (token : JWT) (account : option Account) (usr : option User) :
  account = None \/ usr = None ->
  isValid now token = false ->
  (forall body, provider {| rq_refresh_token := refreshToken token |} <> Ok body) ->
  let token' := fst (jwt provider now later token account usr) in
  snd (jwt provider now later token account usr)
    = [{| rq_refresh_token := refreshToken token |}]
  /\ error token' = Some RefreshAccessTokenError
  /\ accessToken token' = accessToken token
  /\ refreshToken token' = refreshToken token
  /\ expiresAt token' = expiresAt token
  /\ user token' = user token
  /\ s_error (session token') = Some RefreshAccessTokenError
  /\ s_accessToken (session token') = accessToken token
  /\ forall err,
       truthy (accessToken token) = true ->
       is_401 err = true ->
       let task := Home.fetchPlaylists authenticated (Some (session token')) in
       In Home.signOut (performed task [Rejected err])
       /\ issued task [Rejected err] = [Home.GetPlaylists (str (accessToken token))].
Proof.
  intros Hns Hexp Hfail token'. subst token'.
  rewrite (jwt_not_sign_in provider now later token account usr Hns), Hexp.
  destruct (provider _) as [| | body] eqn:Hp;
    [| | exfalso; exact (Hfail body eq_refl)];
    (simpl; repeat (split; [reflexivity |]);
     intros err Htok H401; unfold Home.fetchPlaylists;
     cbn [session s_accessToken with_error accessToken is_authenticated negb orb];
     rewrite Htok; cbn [negb performed issued]; rewrite H401; simpl; tauto).
Qed.

Lemma refresh_failure_flags_error_witness :
  let token' := fst (jwt (fun _ => NotOk) expired_at expired_at sample_token None None) in
  snd (jwt (fun _ => NotOk) expired_at expired_at sample_token None None)
    = [{| rq_refresh_token := Some "refresh-1" |}]
  /\ error token' = Some RefreshAccessTokenError
  /\ accessToken token' = Some "access-1"
  /\ refreshToken token' = Some "refresh-1"
  /\ expiresAt token' = Some 1700003600
  /\ user token' = None
  /\ s_error (session token') = Some RefreshAccessTokenError
  /\ s_accessToken (session token') = Some "access-1"
  /\ forall err,
       truthy (Some "access-1") = true ->
       is_401 err = true ->
       let task := Home.fetchPlaylists authenticated (Some (session token')) in
       In Home.signOut (performed task [Rejected err])
       /\ issued task [Rejected err] = [Home.GetPlaylists "access-1"].
Proof.
  apply (refresh_failure_flags_error (fun _ => NotOk) expired_at expired_at
           sample_token None None).
  - left; reflexivity.
  - reflexivity.
  - intros body H; discriminate H.
Defined.

(** *** Further properties of the [jwt] callback *)

(** Time only moves an expired credential further past its expiry. *)
Lemma isValid_stays_false (now now' : Z) (token : JWT) :
  now <= now' -> isValid now token = false -> isValid now' token = false.
Proof.
  unfold isValid. intros Hle.
  destruct (expiresAt token) as [e |]; simpl; [| reflexivity].
  destruct (e =? 0); simpl; [reflexivity |].
  rewrite !Z.ltb_ge. lia.
Qed.

(** X1.  Whatever token the callback is handed, a sign-in (account and
    user present) returns the account's credential (access token,
    refresh token and expiry) without any refresh
    request and without an error flag; every later invocation before
    that credential's expiry returns it unchanged and sends nothing. *)
Theorem sign_in_credential_served_until_expiry
    (provider provider' : RefreshRequest -> FetchOutcome)
    (now0 later0 now later e : Z) (old : JWT) (a : Account) (u : User) :
  expires_at a = Some e ->
  0 <= now ->
  now < e * 1000 ->
  let signed := fst (jwt provider now0 later0 old (Some a) (Some u)) in
  snd (jwt provider now0 later0 old (Some a) (Some u)) = []
  /\ accessToken signed = access_token a
  /\ refreshToken signed = refresh_token a
  /\ expiresAt signed = Some e
  /\ user signed = Some u
  /\ error signed = None
  /\ jwt provider' now later signed None None = (signed, []).
Proof.
  intros He Hnow Hlt signed. subst signed. simpl.
  repeat split; [exact He |].
  unfold jwt, isValid. simpl. rewrite He. simpl.
  assert (Hz : (e =? 0) = false) by (apply Z.eqb_neq; lia).
  assert (Hl : (now <? e * 1000) = true) by (apply Z.ltb_lt; lia).
  rewrite Hz, Hl. reflexivity.
Qed.

(** The account the provider hands over at sign-in. *)
Lemma sign_in_credential_served_until_expiry_witness :
  let a := {| access_token := Some "access-1";
              refresh_token := Some "refresh-1";
              expires_at := Some 1700003600 |} in
  let u := {| name := Some "Ada"; email := None; image := None |} in
  let signed := fst (jwt (fun _ => Threw) 0 0 (with_error sample_token) (Some a) (Some u)) in
  snd (jwt (fun _ => Threw) 0 0 (with_error sample_token) (Some a) (Some u)) = []
  /\ accessToken signed = access_token a
  /\ refreshToken signed = refresh_token a
  /\ expiresAt signed = Some 1700003600
  /\ user signed = Some u
  /\ error signed = None
  /\ jwt (fun _ => Threw) 1700000000000 1700000000000 signed None None = (signed, []).
Proof.
  apply (sign_in_credential_served_until_expiry
           (fun _ => Threw) (fun _ => Threw) 0 0 1700000000000 1700000000000
           1700003600 (with_error sample_token)).
  - reflexivity.
  - lia.
  - lia.
Defined.

(** X2.  A credential refreshed with [expires_in] of [n >= 1] seconds,
    the answer arriving at millisecond [later], is served without a
    further request from [later] for at least [n - 1] seconds, and is
    expired [n] seconds after [later]. *)
Theorem refreshed_credential_lifetime
    (provider provider' : RefreshRequest -> FetchOutcome)
    (now later now2 later2 : Z) (token : JWT) (body : RefreshedTokens) :
  isValid now token = false ->
  provider {| rq_refresh_token := refreshToken token |} = Ok body ->
  0 <= later ->
  1 <= r_expires_in body ->
  later <= now2 <= later + 1000 * (r_expires_in body - 1) ->
  let token' := fst (jwt provider now later token None None) in
  jwt provider' now2 later2 token' None None = (token', [])
  /\ isValid (later + 1000 * r_expires_in body) token' = false.
Proof.
  intros Hexp Hok Hlater Hn Hnow2 token'.
  assert (E : token' = refreshed later token body).
  { subst token'. rewrite jwt_not_sign_in by (left; reflexivity).
    rewrite Hexp, Hok. reflexivity. }
  rewrite E. clear E token'.
  pose proof (Z.mod_pos_bound later 1000 ltac:(lia)) as Hmod.
  pose proof (Z.div_mod later 1000 ltac:(lia)) as Hdiv.
  split.
  - rewrite jwt_not_sign_in by (left; reflexivity).
    assert (Hv : isValid now2 (refreshed later token body) = true).
    { unfold isValid, refreshed. cbn [expiresAt truthy_num].
      apply andb_true_iff. split.
      - apply negb_true_iff, Z.eqb_neq. lia.
      - apply Z.ltb_lt. lia. }
    rewrite Hv. reflexivity.
  - unfold isValid, refreshed. cbn [expiresAt truthy_num].
    apply andb_false_iff. right. apply Z.ltb_ge. lia.
Qed.

Lemma refreshed_credential_lifetime_witness :
  let body := {| r_access_token := Some "access-2";
                 r_expires_in := 3600;
                 r_refresh_token := None |} in
  let token' := fst (jwt (fun _ => Ok body) expired_at 1700003600250
                         sample_token None None) in
  jwt (fun _ => Threw) (1700003600250 + 1000 * 3599) 0 token' None None = (token', [])
  /\ isValid (1700003600250 + 1000 * r_expires_in body) token' = false.
Proof.
  apply (refreshed_credential_lifetime
           (fun _ => Ok answer_without_refresh_token) (fun _ => Threw)
           expired_at 1700003600250 (1700003600250 + 1000 * 3599) 0
           sample_token answer_without_refresh_token).
  - reflexivity.
  - reflexivity.
  - lia.
  - simpl. lia.
  - simpl. lia.
Defined.

(** X3.  After a failed refresh nothing remembers the failure but the
    flag: at any later time the next invocation finds the kept
    credential expired and sends the same refresh request again. *)
Theorem failed_refresh_is_retried
    (provider provider' : RefreshRequest -> FetchOutcome)
    (now later now' later' : Z) (token : JWT) :
  isValid now token = false ->
  (forall body, provider {| rq_refresh_token := refreshToken token |} <> Ok body) ->
  now <= now' ->
  let token' := fst (jwt provider now later token None None) in
  snd (jwt provider' now' later' token' None None)
  = [{| rq_refresh_token := refreshToken token |}].
Proof.
  intros Hexp Hfail Hle token'.
  assert (E : token' = with_error token).
  { subst token'. rewrite jwt_not_sign_in by (left; reflexivity). rewrite Hexp.
    destruct (provider _) as [| | body] eqn:Hp; try reflexivity.
    exfalso. exact (Hfail body eq_refl). }
  rewrite E. clear E token'.
  rewrite jwt_not_sign_in by (left; reflexivity).
  assert (Hstill : isValid now' (with_error token) = false).
  { apply (isValid_stays_false now now' (with_error token) Hle). exact Hexp. }
  rewrite Hstill. simpl. destruct (provider' _); reflexivity.
Qed.

Lemma failed_refresh_is_retried_witness :
  let token' := fst (jwt (fun _ => NotOk) expired_at expired_at sample_token None None) in
  snd (jwt (fun _ => Threw) (expired_at + 60000) (expired_at + 60000) token' None None)
  = [{| rq_refresh_token := refreshToken sample_token |}].
Proof.
  apply (failed_refresh_is_retried (fun _ => NotOk) (fun _ => Threw)
           expired_at expired_at (expired_at + 60000) (expired_at + 60000)
           sample_token).
  - reflexivity.
  - intros body H. discriminate H.
  - unfold expired_at. lia.
Defined.

(** X4.  Only a sign-in clears the error flag: when a failed refresh is
    followed by a successful one, the renewed credential has the fresh
    access token and expiry and still carries [RefreshAccessTokenError],
    which the [session] callback goes on exposing. *)
Theorem error_flag_outlives_refresh
    (provider provider' : RefreshRequest -> FetchOutcome)
    (now later now' later' : Z) (token : JWT) (body : RefreshedTokens) :
  isValid now token = false ->
  (forall b, provider {| rq_refresh_token := refreshToken token |} <> Ok b) ->
  now <= now' ->
  provider' {| rq_refresh_token := refreshToken token |} = Ok body ->
  let failed := fst (jwt provider now later token None None) in
  let renewed := fst (jwt provider' now' later' failed None None) in
  accessToken renewed = r_access_token body
  /\ expiresAt renewed = Some (later' / 1000 + r_expires_in body)
  /\ error renewed = Some RefreshAccessTokenError
  /\ s_error (session renewed) = Some RefreshAccessTokenError
  /\ s_accessToken (session renewed) = r_access_token body.
Proof.
  intros Hexp Hfail Hle Hok failed renewed.
  assert (E : failed = with_error token).
  { subst failed. rewrite jwt_not_sign_in by (left; reflexivity). rewrite Hexp.
    destruct (provider _) as [| | b] eqn:Hp; try reflexivity.
    exfalso. exact (Hfail b eq_refl). }
  assert (E' : renewed = refreshed later' (with_error token) body).
  { subst renewed. rewrite E.
    rewrite jwt_not_sign_in by (left; reflexivity).
    rewrite (isValid_stays_false now now' (with_error token) Hle Hexp).
    cbn [refreshToken with_error]. rewrite Hok. reflexivity. }
  rewrite E'. repeat split.
Qed.

Lemma error_flag_outlives_refresh_witness :
  let failed := fst (jwt (fun _ => NotOk) expired_at expired_at sample_token None None) in
  let renewed := fst (jwt (fun _ => Ok answer_without_refresh_token)
                          (expired_at + 60000) (expired_at + 60250) failed None None) in
  accessToken renewed = Some "access-2"
  /\ expiresAt renewed = Some ((expired_at + 60250) / 1000 + 3600)
  /\ error renewed = Some RefreshAccessTokenError
  /\ s_error (session renewed) = Some RefreshAccessTokenError
  /\ s_accessToken (session renewed) = Some "access-2".
Proof.
  apply (error_flag_outlives_refresh
           (fun _ => NotOk) (fun _ => Ok answer_without_refresh_token)
           expired_at expired_at (expired_at + 60000) (expired_at + 60250)
           sample_token answer_without_refresh_token).
  - reflexivity.
  - intros b H. discriminate H.
  - unfold expired_at. lia.
  - reflexivity.
Defined.

(** X5.  A stored credential without an expiry, or with expiry 0, is
    never served: at every clock reading the invocation sends the
    refresh request. *)
Theorem credential_without_expiry_always_refreshes
    (provider : RefreshRequest -> FetchOutcome) (now later : Z) (token : JWT) :
  expiresAt token = None \/ expiresAt token = Some 0 ->
  isValid now token = false
  /\ snd (jwt provider now later token None None)
     = [{| rq_refresh_token := refreshToken token |}].
Proof.
  intros He.
  assert (Hv : isValid now token = false).
  { unfold isValid. destruct He as [-> | ->]; reflexivity. }
  split; [exact Hv |].
  rewrite jwt_not_sign_in by (left; reflexivity).
  rewrite Hv. destruct (provider _); reflexivity.
Qed.

Lemma credential_without_expiry_always_refreshes_witness :
  let token := {| accessToken := Some "access-1"; refreshToken := Some "refresh-1";
                  expiresAt := None; user := None; error := None |} in
  isValid 0 token = false
  /\ snd (jwt (fun _ => Threw) 0 0 token None None)
     = [{| rq_refresh_token := Some "refresh-1" |}].
Proof.
  apply (credential_without_expiry_always_refreshes (fun _ => Threw) 0 0
           {| accessToken := Some "access-1"; refreshToken := Some "refresh-1";
              expiresAt := None; user := None; error := None |}).
  left. reflexivity.
Defined.

(** X6.  Whatever its arguments, one invocation of the callback sends
    either nothing or the single refresh request carrying the stored
    refresh token; it sends nothing exactly on a sign-in and while the
    stored credential is valid. *)
Theorem jwt_sends_at_most_the_refresh
    (provider : RefreshRequest -> FetchOutcome) (now later : Z)
    (token : JWT) (account : option Account) (usr : option User) :
  let sent := snd (jwt provider now later token account usr) in
  (sent = [] \/ sent = [{| rq_refresh_token := refreshToken token |}])
  /\ (sent = [] <->
      (exists a u, account = Some a /\ usr = Some u) \/ isValid now token = true).
Proof.
  intros sent. subst sent.
  destruct account as [a |]; [destruct usr as [u |] |].
  - simpl. split; [auto |]. split; eauto.
  - rewrite jwt_not_sign_in by (right; reflexivity).
    destruct (isValid now token); simpl.
    + split; [auto |]. split; auto.
    + destruct (provider _); simpl; (split; [auto |]);
        (split; [discriminate | intros [(a0 & u & _ & H) | H]; discriminate H]).
  - rewrite jwt_not_sign_in by (left; reflexivity).
    destruct (isValid now token); simpl.
    + split; [auto |]. split; auto.
    + destruct (provider _); simpl; (split; [auto |]);
        (split; [discriminate | intros [(a0 & u & H & _) | H]; discriminate H]).
Qed.

Lemma jwt_sends_at_most_the_refresh_witness :
  let sent := snd (jwt (fun _ => NotOk) expired_at expired_at sample_token None None) in
  (sent = [] \/ sent = [{| rq_refresh_token := refreshToken sample_token |}])
  /\ (sent = [] <->
      (exists a u, @None Account = Some a /\ @None User = Some u)
      \/ isValid expired_at sample_token = true).
Proof.
  exact (jwt_sends_at_most_the_refresh (fun _ => NotOk) expired_at expired_at
           sample_token None None).
Defined.

End AuthSpec.

(** ** The playlist list of the home page *)

Module HomeSpec.

Import Home.
Local Open Scope list_scope.

(** [fetchPlaylists] once the guard has let it through. *)
Lemma fetchPlaylists_signed_in (status : Status) (session : option Auth.Session) :
  is_authenticated status = true ->
  truthy (token_of session) = true ->
  exists k,
    fetchPlaylists status session =
    Do (setIsLoadingPlaylists true) (
    Do (setApiError None) (
    Await (GetPlaylists (str (token_of session))) k))
    /\ (forall items,
          k (Resolved items) =
          Do (setPlaylists items) (Do (setIsLoadingPlaylists false) Return))
    /\ (forall err,
          is_401 err = false ->
          k (Rejected err) =
          Do (setApiError (Some "Failed to load playlists. Please try again.")) (
          Do (setIsLoadingPlaylists false) Return))
    /\ (forall err,
          is_401 err = true ->
          exists note,
            k (Rejected err) =
            Do (setApiError (Some "Failed to load playlists. Please try again.")) (
            note (Do signOut (Do (setIsLoadingPlaylists false) Return)))
            /\ (note = (fun p => p)
                \/ note = Do (setApiError
                                (Some "Your session has expired. Please log in again.")))).
Proof.
  intros Ha Ht. unfold fetchPlaylists. fold (token_of session).
  rewrite Ha, Ht. cbn [negb orb].
  eexists. split; [reflexivity |]. split; [reflexivity |]. split.
  - intros err He. cbn beta iota. rewrite He. reflexivity.
  - intros err He. cbn beta iota. rewrite He.
    destruct (is_str _ Auth.RefreshAccessTokenError).
    + exists (Do (setApiError (Some "Your session has expired. Please log in again."))).
      split; [reflexivity | right; reflexivity].
    + exists (fun p => p). split; [reflexivity | left; reflexivity].
Qed.

(** X7.  [fetchPlaylists] sends the one request for the user's
    playlists, with the session's token, exactly when the status is
    authenticated and the token is non-empty; otherwise it only empties
    the list.  Whatever the answer, it never sends a second request. *)
Theorem fetchPlaylists_single_request
    (status : Status) (session : option Auth.Session)
    (answers : list (Reply (list Playlist))) :
  (is_authenticated status && truthy (token_of session) = true ->
   issued (fetchPlaylists status session) answers
   = [GetPlaylists (str (token_of session))])
  /\ (is_authenticated status && truthy (token_of session) = false ->
      issued (fetchPlaylists status session) answers = []
      /\ performed (fetchPlaylists status session) answers = [setPlaylists []]).
Proof.
  split.
  - intros H. apply andb_true_iff in H. destruct H as [Ha Ht].
    destruct (fetchPlaylists_signed_in status session Ha Ht)
      as (k & -> & Hres & Hrej & H401).
    cbn [issued]. f_equal.
    destruct answers as [| [items | err] rest]; [reflexivity | |].
    + rewrite Hres. reflexivity.
    + destruct (is_401 err) eqn:He.
      * destruct (H401 err He) as (note & -> & [-> | ->]); reflexivity.
      * rewrite (Hrej err He). reflexivity.
  - intros H. unfold fetchPlaylists. fold (token_of session).
    apply andb_false_iff in H.
    destruct H as [-> | ->]; cbn [negb orb]; rewrite ?orb_true_r; auto.
Qed.

(** X8.  When the playlist request is answered, the last update always
    resets the loading flag; the user is signed out exactly when the
    answer is a rejection with status 401; and the stored list is
    replaced only by the items of a resolved answer. *)
Theorem fetchPlaylists_outcome
    (status : Status) (session : option Auth.Session)
    (answer : Reply (list Playlist)) (rest : list (Reply (list Playlist))) :
  is_authenticated status = true ->
  truthy (token_of session) = true ->
  let done := performed (fetchPlaylists status session) (answer :: rest) in
  last done signOut = setIsLoadingPlaylists false
  /\ (In signOut done <-> exists err, answer = Rejected err /\ is_401 err = true)
  /\ (forall l, In (setPlaylists l) done <-> answer = Resolved l).
Proof.
  intros Ha Ht done. subst done.
  destruct (fetchPlaylists_signed_in status session Ha Ht)
    as (k & -> & Hres & Hrej & H401).
  cbn [performed].
  destruct answer as [items | err].
  - rewrite Hres. cbn [performed last]. split; [reflexivity |]. split.
    + split.
      * intros [H | [H | [H | [H | []]]]]; discriminate H.
      * intros (err & H & _). discriminate H.
    + intros l. split.
      * intros [H | [H | [H | [H | []]]]]; try discriminate H.
        injection H as <-. reflexivity.
      * intros [= <-]. simpl. auto.
  - destruct (is_401 err) eqn:He.
    + destruct (H401 err He) as (note & -> & [-> | ->]);
        cbn [performed last]; (split; [reflexivity |]); split.
      * split; [intros _; eauto | intros _; simpl; auto].
      * intros l. split.
        -- intros [H | [H | [H | [H | [H | []]]]]]; discriminate H.
        -- intros H. discriminate H.
      * split; [intros _; eauto | intros _; simpl; auto 7].
      * intros l. split.
        -- intros [H | [H | [H | [H | [H | [H | []]]]]]]; discriminate H.
        -- intros H. discriminate H.
    + rewrite (Hrej err He). cbn [performed last]. split; [reflexivity |]. split.
      * split.
        -- intros [H | [H | [H | [H | []]]]]; discriminate H.
        -- intros (err' & [= <-] & H). congruence.
      * intros l. split.
        -- intros [H | [H | [H | [H | []]]]]; discriminate H.
        -- intros H. discriminate H.
Qed.

Lemma fetchPlaylists_single_request_witness :
  (is_authenticated authenticated && truthy (token_of (Some sample_session)) = true ->
   issued (fetchPlaylists authenticated (Some sample_session))
          [Rejected unauthorized; Resolved []]
   = [GetPlaylists "access-1"])
  /\ (is_authenticated authenticated && truthy (token_of (Some sample_session)) = false ->
      issued (fetchPlaylists authenticated (Some sample_session))
             [Rejected unauthorized; Resolved []] = []
      /\ performed (fetchPlaylists authenticated (Some sample_session))
                   [Rejected unauthorized; Resolved []] = [setPlaylists []]).
Proof.
  exact (fetchPlaylists_single_request authenticated (Some sample_session)
           [Rejected unauthorized; Resolved []]).
Defined.

Lemma fetchPlaylists_outcome_witness :
  let done := performed (fetchPlaylists authenticated (Some sample_session))
                        [Rejected unauthorized] in
  last done signOut = setIsLoadingPlaylists false
  /\ (In signOut done <->
      exists err, @Rejected (list Playlist) unauthorized = Rejected err
                  /\ is_401 err = true)
  /\ (forall l, In (setPlaylists l) done <-> Rejected unauthorized = Resolved l).
Proof.
  apply (fetchPlaylists_outcome authenticated (Some sample_session)
           (Rejected unauthorized) []); reflexivity.
Defined.

End HomeSpec.

(** ** The player component *)

Module PlayerSpec.

Import Player.
Local Open Scope list_scope.

(** Unfold one state and compute through the setters. *)
Ltac by_fields s := destruct s; simpl in *; try reflexivity.

Lemma http_app (l1 l2 : list Effect) : http (l1 ++ l2) = http l1 ++ http l2.
Proof.
  induction l1 as [| e l1 IH]; simpl; [reflexivity |].
  destruct e; simpl; rewrite ?IH; reflexivity.
Qed.

Lemma nth_error_snoc {A : Type} (l : list A) (x : A) :
  nth_error (l ++ [x]) (List.length l) = Some x.
Proof. induction l; simpl; auto. Qed.

Lemma remove_nth_snoc {A : Type} (l : list A) (x : A) :
  remove_nth (List.length l) (l ++ [x]) = l.
Proof. induction l; simpl; [reflexivity | now f_equal]. Qed.

(** *** Fetching the tracks of a playlist *)

Section Fetch.

Variable r : State.
Hypothesis selected : truthy (selectedPlaylistId r) = true.
Hypothesis signed_in : truthy (accessToken r) = true.

Let request : Request :=
  GetPlaylistTracks (str (selectedPlaylistId r)) (str (accessToken r)) 50.

Lemma fetchPlaylistTracks_started :
  fetchPlaylistTracks r =
  Do (setIsLoadingTracks true) (
  Do (setPlaybackError None) (
  Await request fetchPlaylistTracks_resume)).
Proof. unfold fetchPlaylistTracks. rewrite selected, signed_in. reflexivity. Qed.

(** The request leaves with the playlist id in its address only; what
    waits for the answer is the same continuation for every playlist. *)
Lemma fetchPlaylistTracks_pending (s : State) :
  pending (exec (fetchPlaylistTracks r) s)
  = pending s ++ [(request, fetchPlaylistTracks_resume)].
Proof. rewrite fetchPlaylistTracks_started. by_fields s. Qed.

End Fetch.

Lemma filter_Boolean_objects (l : list JsTrack) :
  Forall (fun v => exists t, v = object t) (filter Boolean l).
Proof.
  apply Forall_forall. intros v Hv.
  apply filter_In in Hv. destruct Hv as [_ Hb].
  destruct v; try discriminate. eauto.
Qed.

(** C9.  A playlist-track fetch that succeeds stores the [track] field
    of every item of the answer whose track is an object, in the order
    of the answer, and nothing else: no stored entry is [null] or
    [undefined]. *)
Theorem fetched_tracks_are_objects (r s : State) (items : list Item) :
  truthy (selectedPlaylistId r) = true ->
  truthy (accessToken r) = true ->
  let waiting := exec (fetchPlaylistTracks r) s in
  let done := deliver (List.length (pending s)) (Resolved items) waiting in
  tracks done = filter Boolean (map track items)
  /\ Forall (fun v => exists t, v = object t) (tracks done)
  /\ (forall t, In (object t) (tracks done) <-> In (mkItem (object t)) items)
  /\ ~ In null (tracks done) /\ ~ In undefined (tracks done).
Proof.
  intros Hsel Htok waiting done.
  assert (Htracks : tracks done = filter Boolean (map track items)).
  { subst done waiting. unfold deliver.
    rewrite fetchPlaylistTracks_pending by assumption.
    rewrite nth_error_snoc. by_fields (exec (fetchPlaylistTracks r) s). }
  rewrite Htracks.
  split; [reflexivity |]. split; [apply filter_Boolean_objects |].
  split; [| split].
  - intros t. rewrite filter_In, in_map_iff. simpl. split.
    + intros [[[v] [Hv Hin]] _]. simpl in Hv. subst v. exact Hin.
    + intros Hin. split; [| reflexivity]. exists (mkItem (object t)). auto.
  - intros H. apply filter_In in H. destruct H as [_ H]. discriminate H.
  - intros H. apply filter_In in H. destruct H as [_ H]. discriminate H.
Qed.

Lemma fetched_tracks_are_objects_witness :
  let r := set_selectedPlaylistId (Some "P") browsing in
  let waiting := exec (fetchPlaylistTracks r) r in
  let done := deliver (List.length (pending r)) (Resolved answer_P) waiting in
  tracks done = filter Boolean (map track answer_P)
  /\ Forall (fun v => exists t, v = object t) (tracks done)
  /\ (forall t, In (object t) (tracks done) <-> In (mkItem (object t)) answer_P)
  /\ ~ In null (tracks done) /\ ~ In undefined (tracks done).
Proof.
  apply (fetched_tracks_are_objects
           (set_selectedPlaylistId (Some "P") browsing)
           (set_selectedPlaylistId (Some "P") browsing) answer_P);
    reflexivity.
Defined.

(** The claim of C1 as the spec words it fails: with Q selected and
    Q's tracks shown, the late answer for P replaces the list. *)
Lemma stale_response_replaces_tracks :
  selectedPlaylistId showing_Q = Some "Q"
  /\ map fst (pending showing_Q) = [GetPlaylistTracks "P" "tok" 50]
  /\ tracks showing_Q = [object (song "q1")]
  /\ tracks (step (Arrives 0 (Resolved answer_P)) showing_Q)
     = [object (song "p1"); object (song "p2")]
  /\ selectedPlaylistId (step (Arrives 0 (Resolved answer_P)) showing_Q) = Some "Q"
  /\ tracks (step (Arrives 0 (Resolved answer_P)) showing_Q) <> tracks showing_Q.
Proof.
  repeat split; try reflexivity.
  intros H. discriminate H.
Qed.

(** C1, amended.  The answer of a playlist-track request is applied
    when it arrives, whichever playlist is selected by then: a resolved
    answer replaces the shown list with its own tracks and leaves the
    selection as it is.  The continuation of the request holds no
    playlist id to compare. *)
Theorem track_response_applied_on_arrival
    (s : State) (i : nat) (playlistId token : string) (items : list Item) :
  nth_error (pending s) i
    = Some (GetPlaylistTracks playlistId token 50, fetchPlaylistTracks_resume) ->
  let s' := step (Arrives i (Resolved items)) s in
  tracks s' = filter Boolean (map track items)
  /\ selectedPlaylistId s' = selectedPlaylistId s
  /\ pending s' = remove_nth i (pending s).
Proof.
  intros Hp s'. subst s'. simpl. unfold deliver. rewrite Hp.
  by_fields s. auto.
Qed.

Lemma track_response_applied_on_arrival_witness :
  let s' := step (Arrives 0 (Resolved answer_P)) showing_Q in
  tracks s' = filter Boolean (map track answer_P)
  /\ selectedPlaylistId s' = selectedPlaylistId showing_Q
  /\ pending s' = remove_nth 0 (pending showing_Q).
Proof.
  apply (track_response_applied_on_arrival showing_Q 0 "P" "tok" answer_P).
  reflexivity.
Defined.

(** *** Selecting a track *)

Lemma perform_http (a : Action) (s : State) :
  http (log (perform a s)) = http (log s).
Proof.
  destruct a; by_fields s.
  rewrite http_app. simpl. apply app_nil_r.
Qed.

Lemma perform_pending (a : Action) (s : State) :
  pending (perform a s) = pending s.
Proof. destruct a; by_fields s. Qed.

Lemma exec_http (p : Task) (s : State) :
  http (log (exec p s)) = http (log s) ++ issued p [].
Proof.
  revert s. induction p as [| a k IH | rq k _]; intros s; simpl.
  - symmetry. apply app_nil_r.
  - rewrite IH, perform_http. reflexivity.
  - by_fields s. apply http_app.
Qed.

Lemma exec_pending (p : Task) (s : State) :
  pending (exec p s) = pending s ++ awaiting p.
Proof.
  revert s. induction p as [| a k IH | rq k _]; intros s; simpl.
  - symmetry. apply app_nil_r.
  - rewrite IH, perform_pending. reflexivity.
  - by_fields s.
Qed.

Lemma playTrack_catch_issued (error : ApiError) (answers : list Answer) :
  issued (playTrack_catch error) answers = [].
Proof. unfold playTrack_catch. destruct (is_401 error); reflexivity. Qed.




(** *** Initialising the device *)

(** Once a device has reported [ready] the flag is set and a further
    call of [initializeSpotifyPlayer] does nothing. *)
Lemma initialize_after_ready (cl : Closure) (s : State) :
  playerInitialized s = true -> initializeSpotifyPlayer cl s = s.
Proof.
  intros H. unfold initializeSpotifyPlayer. rewrite H.
  rewrite orb_true_r. reflexivity.
Qed.

(** C2, the code at the failing input.  While the first connect attempt
    is in flight the flag [playerInitialized] is still false (only the
    [ready] listener sets it), so a second request goes through: when
    the session's token is refreshed before [ready], the effect runs
    again and connects a second instance without disconnecting the
    first; so does a second direct call of [initializeSpotifyPlayer]. *)
Example second_connect_while_connecting :
  live_handles connecting = 1
  /\ player connecting = None
  /\ playerInitialized connecting = false
  /\ live_handles (step (SessionChange authenticated (Some "tok2")) connecting) = 2
  /\ live_handles
       (initializeSpotifyPlayer
          {| cl_id := 0; cl_player := None; cl_playbackError := None |}
          connecting) = 2
  /\ live_handles (step RerunSdkEffect connecting) = 2.
Proof. repeat split. Qed.

(** [player] is a dependency of the SDK effect, and the [ready] listener
    sets it.  When React then runs the effect again, the cleanup resets
    the flag and the body disconnects instance 0 and connects instance 1;
    that sets [player] back to undefined, the effect runs once more and
    connects instance 2 while instance 1 is still connecting. *)
Remark reinitialised_after_ready :
  let s := run [Ready 0 "dev"; RerunSdkEffect; RerunSdkEffect] connecting in
  map connected (instances s) = [false; true; true]
  /\ player s = None
  /\ playerInitialized s = false.
Proof. repeat split. Qed.

(** *** Transport controls *)

(** The transport buttons are part of the last view only, which needs
    both a handle and a device id. *)
Lemma controls_need_ready_device (s : State) :
  render s = Controls -> device_ready s = true.
Proof.
  unfold render, device_ready.
  destruct (negb (is_authenticated (status s))); [discriminate |].
  destruct (playerLoading s); [discriminate |].
  destruct (is_some (player s)); destruct (truthy (deviceId s));
    simpl; intros H; try discriminate H; reflexivity.
Qed.

(** The three functions themselves: no Web API request, nothing of the
    component changed, the matching method called on the handle in
    [player] when there is one, nothing at all done otherwise. *)
Lemma transport_controls_delegate (e : Event) (s : State) :
  e = ClickPlayPause \/ e = ClickNext \/ e = ClickPrevious ->
  let s' := step e s in
  http (log s') = http (log s)
  /\ pending s' = pending s
  /\ (player s = None -> s' = s)
  /\ (forall h, player s = Some h ->
                s' = set_log (log s ++ transport e h) s)
  /\ (render s = Controls -> device_ready s = true).
Proof.
  intros He s'. subst s'.
  assert (Hview := controls_need_ready_device s).
  destruct He as [-> | [-> | ->]]; simpl;
    unfold togglePlayPause, skipNext, skipPrevious;
    (destruct (player s) as [h |] eqn:Hp;
     [ repeat apply conj;
       [ by_fields s; rewrite http_app; simpl; apply app_nil_r
       | by_fields s
       | discriminate
       | intros h' [= <-]; reflexivity
       | exact Hview ]
     | repeat apply conj;
       [ reflexivity | reflexivity | reflexivity | discriminate | exact Hview ] ]).
Qed.

(** A transport button that can be pressed is on the page of a ready
    device. *)
Lemma offered_transport_ready (e : Event) (s : State) :
  e = ClickPlayPause \/ e = ClickNext \/ e = ClickPrevious ->
  offered e s = true -> device_ready s = true.
Proof.
  intros He Ho. apply controls_need_ready_device.
  destruct He as [-> | [-> | ->]]; simpl in Ho;
    destruct (render s); try discriminate Ho; reflexivity.
Qed.

(** C8.  A press of the play/pause, next or previous button runs
    [togglePlayPause], [skipNext] or [skipPrevious], which makes no Web
    API request and changes nothing of the component: it calls the
    matching method of the device handle, and that is all.  Whenever no
    device is ready (no handle, or no device id) the press is a no-op:
    no call is made and no state changes; and without a handle the
    functions themselves do nothing. *)
Theorem transport_controls_need_ready_device (e : Event) (s : State) :
  e = ClickPlayPause \/ e = ClickNext \/ e = ClickPrevious ->
  let s' := ui_step e s in
  http (log s') = http (log s)
  /\ pending s' = pending s
  /\ (device_ready s = false -> s' = s)
  /\ (offered e s = true ->
      exists h, player s = Some h
                /\ truthy (deviceId s) = true
                /\ s' = set_log (log s ++ transport e h) s)
  /\ (player s = None -> step e s = s).
Proof.
  intros He s'. subst s'. unfold ui_step.
  destruct (transport_controls_delegate e s He) as (Hh & Hp & Hn & Hs & _).
  pose proof (offered_transport_ready e s He) as Hready.
  destruct (offered e s) eqn:Ho.
  - specialize (Hready eq_refl).
    split; [exact Hh |]. split; [exact Hp |]. split; [| split].
    + intros Hd. congruence.
    + intros _. unfold device_ready in Hready.
      apply andb_true_iff in Hready. destruct Hready as [Hpl Hdev].
      destruct (player s) as [h |] eqn:Hplayer; [| discriminate Hpl].
      exists h. repeat split; [exact Hdev | apply Hs; reflexivity].
    + exact Hn.
  - split; [reflexivity |]. split; [reflexivity |]. split; [| split].
    + reflexivity.
    + discriminate.
    + exact Hn.
Qed.

Lemma transport_controls_need_ready_device_witness :
  (device_ready offline = false /\ ui_step ClickNext offline = offline)
  /\ (offered ClickNext listening = true
      /\ ui_step ClickNext listening
         = set_log (log listening ++ [nextTrack 0]) listening
      /\ http (log (ui_step ClickNext listening)) = http (log listening)).
Proof.
  split.
  - split; [reflexivity |].
    apply (transport_controls_need_ready_device ClickNext offline).
    + right; left; reflexivity.
    + reflexivity.
  - split; [reflexivity |].
    destruct (transport_controls_need_ready_device ClickNext listening)
      as (Hh & _ & _ & Ho & _).
    + right; left; reflexivity.
    + split; [| exact Hh].
      destruct (Ho eq_refl) as (h & Hp & _ & ->).
      injection Hp as <-. reflexivity.
Defined.

(** *** The Premium restriction *)

(** The claim of C3 as the spec words it fails: after the restricted
    snapshot a track selection is rejected, but once the user picks
    another playlist the fetch clears the error, and a click on one of
    the tracks then listed sends the transfer, although no snapshot
    without the restriction was seen. *)
Lemma rejection_ends_without_unrestricted_snapshot :
  render restricted = Controls
  /\ tracks restricted = [object (song "p1"); object (song "p2")]
  /\ playbackError restricted = Some premium_required_message
  /\ step (ClickTrack "spotify:track:p1") restricted = restricted
  /\ playbackError (step (SelectPlaylist "Q") restricted) = None
  /\ let s := run [SelectPlaylist "Q"; Arrives 0 (Resolved answer_Q)] restricted in
     render s = Controls
     /\ isLoadingTracks s = false
     /\ tracks s = [object (song "q1")]
     /\ playbackError s = None
     /\ http (log (step (ClickTrack "spotify:track:q1") s))
        = http (log s) ++ [TransferPlayback "dev" "tok"].
Proof. repeat split. Qed.

(** The listeners of instance 0 were created in the first render, where
    [playbackError] was [null]; that captured value is what the listener
    compares with the Premium message, so a later snapshot without the
    restriction leaves the message in place. *)
Remark unrestricted_snapshot_with_stale_closure :
  nth_error (instances restricted) 0
    = Some {| connected := true;
              listeners := {| cl_id := 0; cl_player := None;
                              cl_playbackError := None |} |}
  /\ playbackError (step (PlayerStateChanged 0 (Some unrestricted_snapshot)) restricted)
     = Some premium_required_message.
Proof. split; reflexivity. Qed.

Lemma playTrack_rejected (s : State) (trackUri : string) :
  rejecting s ->
  issued (playTrack s trackUri) [] = []
  /\ awaiting (playTrack s trackUri) = []
  /\ rejecting (exec (playTrack s trackUri) s)
  /\ not_ready (exec (playTrack s trackUri) s) = not_ready s.
Proof.
  intros Hr. unfold playTrack. fold (not_ready s).
  destruct (not_ready s) eqn:Hn.
  - simpl.
    assert (Hsame : not_ready
              (set_playbackError (Some "Player not ready or not authenticated.") s)
            = not_ready s) by (by_fields s).
    repeat split; auto; first [congruence | left; congruence].
  - destruct Hr as [Hr | He]; [congruence |].
    rewrite He, is_str_refl. simpl.
    repeat split; auto. right. exact He.
Qed.

Lemma snapshot_restricted (captured : option string) (st : PlaybackState) (s : State) :
  premium_required st = true ->
  let s' := on_player_state_changed captured (Some st) s in
  playbackError s' = Some premium_required_message
  /\ not_ready s' = not_ready s
  /\ http (log s') = http (log s)
  /\ pending s' = pending s.
Proof.
  intros Hp. unfold on_player_state_changed, not_ready. rewrite Hp.
  by_fields s. repeat split.
  rewrite !http_app. simpl. rewrite !app_nil_r. reflexivity.
Qed.

Lemma step_keeps_restriction (e : Event) (s : State) :
  keeps_restriction e = true ->
  rejecting s ->
  rejecting (step e s)
  /\ http (log (step e s)) = http (log s)
  /\ pending (step e s) = pending s.
Proof.
  intros Hk Hr.
  destruct e; try discriminate Hk; simpl in *.
  - (* a snapshot *)
    unfold listener. destruct (nth_error (instances s) h) as [i |]; [| auto].
    destruct state as [st |]; [| simpl; auto].
    destruct (snapshot_restricted (cl_playbackError (listeners i)) st s Hk)
      as (He & Hn & Hh & Hq).
    repeat split; [right; exact He | exact Hh | exact Hq].
  - (* a track selection *)
    destruct (playTrack_rejected s trackUri Hr) as (Hi & Ha & Hr' & _).
    rewrite exec_http, exec_pending, Hi, Ha, !app_nil_r. auto.
  - (* play/pause *)
    unfold togglePlayPause. destruct (player s) eqn:Hp; [| auto].
    unfold rejecting, not_ready in *. by_fields s. subst.
    rewrite http_app. simpl. rewrite app_nil_r. auto.
  - unfold skipNext. destruct (player s) eqn:Hp; [| auto].
    unfold rejecting, not_ready in *. by_fields s. subst.
    rewrite http_app. simpl. rewrite app_nil_r. auto.
  - unfold skipPrevious. destruct (player s) eqn:Hp; [| auto].
    unfold rejecting, not_ready in *. by_fields s. subst.
    rewrite http_app. simpl. rewrite app_nil_r. auto.
Qed.

Lemma run_keeps_restriction (es : list Event) (s : State) :
  forallb keeps_restriction es = true ->
  rejecting s ->
  rejecting (run es s)
  /\ http (log (run es s)) = http (log s)
  /\ pending (run es s) = pending s.
Proof.
  revert s. induction es as [| e es IH]; intros s Hall Hr; simpl in *.
  - auto.
  - apply andb_true_iff in Hall. destruct Hall as [He Hes].
    destruct (step_keeps_restriction e s He Hr) as (Hr' & Hh & Hq).
    destruct (IH (step e s) Hes Hr') as (Hr'' & Hh' & Hq').
    rewrite Hh', Hq'. auto.
Qed.

(** C3, amended.  Once a snapshot of a live instance reports
    [PREMIUM_REQUIRED], [playbackError] holds the Premium message, and
    through any further track selections, transport clicks and
    snapshots that report the restriction again, every track selection
    returns without a Web API request: nothing is sent and nothing is
    left waiting. *)
Theorem premium_required_rejects
    (s : State) (h : Handle) (st : PlaybackState) (es : list Event) :
  h < List.length (instances s) ->
  premium_required st = true ->
  forallb keeps_restriction es = true ->
  let s1 := step (PlayerStateChanged h (Some st)) s in
  playbackError s1 = Some premium_required_message
  /\ (forall trackUri, issued (playTrack s1 trackUri) [] = [])
  /\ http (log (run es s1)) = http (log s1)
  /\ pending (run es s1) = pending s1
  /\ (forall trackUri,
        step (ClickTrack trackUri) (run es s1) = run es s1
        \/ playbackError (step (ClickTrack trackUri) (run es s1))
           = Some "Player not ready or not authenticated.").
Proof.
  intros Hh Hp Hes s1.
  assert (He : playbackError s1 = Some premium_required_message).
  { subst s1. simpl. unfold listener.
    destruct (nth_error (instances s) h) as [i |] eqn:Hi.
    - apply (snapshot_restricted _ st s Hp).
    - apply nth_error_None in Hi. lia. }
  assert (Hr : rejecting s1) by (right; exact He).
  destruct (run_keeps_restriction es s1 Hes Hr) as (Hr' & Hlog & Hq).
  split; [exact He |]. split; [| split; [exact Hlog | split; [exact Hq |]]].
  - intros trackUri. apply (playTrack_rejected s1 trackUri Hr).
  - intros trackUri. simpl.
    set (s2 := run es s1) in *.
    unfold playTrack. fold (not_ready s2).
    destruct (not_ready s2) eqn:Hn.
    + right. by_fields s2.
    + destruct Hr' as [Hn' | He']; [congruence |].
      rewrite He', is_str_refl. left. reflexivity.
Qed.

Lemma premium_required_rejects_witness :
  let es := [ClickTrack "spotify:track:s2"; ClickNext;
             PlayerStateChanged 0 (Some premium_snapshot);
             ClickTrack "spotify:track:s3"] in
  let s1 := step (PlayerStateChanged 0 (Some premium_snapshot)) ready in
  playbackError s1 = Some premium_required_message
  /\ (forall trackUri, issued (playTrack s1 trackUri) [] = [])
  /\ http (log (run es s1)) = http (log s1)
  /\ pending (run es s1) = pending s1
  /\ (forall trackUri,
        step (ClickTrack trackUri) (run es s1) = run es s1
        \/ playbackError (step (ClickTrack trackUri) (run es s1))
           = Some "Player not ready or not authenticated.").
Proof.
  apply (premium_required_rejects ready 0 premium_snapshot
           [ClickTrack "spotify:track:s2"; ClickNext;
            PlayerStateChanged 0 (Some premium_snapshot);
            ClickTrack "spotify:track:s3"]).
  - simpl. lia.
  - reflexivity.
  - reflexivity.
Defined.

(** *** What the session and the network do not see

  Most of the component neither reads a new session nor talks to the
  Web API: it leaves [status], [accessToken] and the requests in
  flight as they are and adds no request to the log. *)

Lemma untouched_refl (s : State) : untouched s s.
Proof. split; reflexivity. Qed.

Lemma untouched_trans (s1 s2 s3 : State) :
  untouched s1 s2 -> untouched s2 s3 -> untouched s1 s3.
Proof. intros [] []. split; congruence. Qed.

Ltac frame_step s :=
  let H := fresh in
  intros H; destruct H; destruct s; simpl in *; split; simpl; assumption.

Lemma untouched_set_selectedPlaylistId (s0 s : State) v :
  untouched s0 s -> untouched s0 (set_selectedPlaylistId v s).
Proof. frame_step s. Qed.

Lemma untouched_set_player (s0 s : State) v :
  untouched s0 s -> untouched s0 (set_player v s).
Proof. frame_step s. Qed.

Lemma untouched_set_isPaused (s0 s : State) v :
  untouched s0 s -> untouched s0 (set_isPaused v s).
Proof. frame_step s. Qed.

Lemma untouched_set_currentTrack (s0 s : State) v :
  untouched s0 s -> untouched s0 (set_currentTrack v s).
Proof. frame_step s. Qed.

Lemma untouched_set_deviceId (s0 s : State) v :
  untouched s0 s -> untouched s0 (set_deviceId v s).
Proof. frame_step s. Qed.

Lemma untouched_set_playbackError (s0 s : State) v :
  untouched s0 s -> untouched s0 (set_playbackError v s).
Proof. frame_step s. Qed.

Lemma untouched_set_tracks (s0 s : State) v :
  untouched s0 s -> untouched s0 (set_tracks v s).
Proof. frame_step s. Qed.

Lemma untouched_set_isLoadingTracks (s0 s : State) v :
  untouched s0 s -> untouched s0 (set_isLoadingTracks v s).
Proof. frame_step s. Qed.

Lemma untouched_set_playerLoading (s0 s : State) v :
  untouched s0 s -> untouched s0 (set_playerLoading v s).
Proof. frame_step s. Qed.

Lemma untouched_set_accessTokenRef (s0 s : State) v :
  untouched s0 s -> untouched s0 (set_accessTokenRef v s).
Proof. frame_step s. Qed.

Lemma untouched_set_playerInitialized (s0 s : State) v :
  untouched s0 s -> untouched s0 (set_playerInitialized v s).
Proof. frame_step s. Qed.

Lemma untouched_set_window_Spotify (s0 s : State) v :
  untouched s0 s -> untouched s0 (set_window_Spotify v s).
Proof. frame_step s. Qed.

Lemma untouched_set_window_onSpotifyWebPlaybackSDKReady (s0 s : State) v :
  untouched s0 s -> untouched s0 (set_window_onSpotifyWebPlaybackSDKReady v s).
Proof. frame_step s. Qed.

Lemma untouched_set_cleanup (s0 s : State) v :
  untouched s0 s -> untouched s0 (set_cleanup v s).
Proof. frame_step s. Qed.

Lemma untouched_set_closures (s0 s : State) v :
  untouched s0 s -> untouched s0 (set_closures v s).
Proof. frame_step s. Qed.

Lemma untouched_set_instances (s0 s : State) v :
  untouched s0 s -> untouched s0 (set_instances v s).
Proof. frame_step s. Qed.

Lemma untouched_emit (s0 s : State) (e : Effect) :
  silent e = true -> untouched s0 s -> untouched s0 (emit e s).
Proof.
  intros He [Hs Ht Hp Hh]. destruct s; simpl in *.
  split; simpl; try assumption.
  rewrite http_app, Hh. destruct e; try discriminate He; apply app_nil_r.
Qed.

Lemma untouched_connect (s0 s : State) (h : Handle) :
  untouched s0 s -> untouched s0 (player_connect h s).
Proof.
  intros H. unfold player_connect.
  apply untouched_emit; [reflexivity |]. now apply untouched_set_instances.
Qed.

Lemma untouched_disconnect (s0 s : State) (h : Handle) :
  untouched s0 s -> untouched s0 (player_disconnect h s).
Proof.
  intros H. unfold player_disconnect.
  apply untouched_emit; [reflexivity |]. now apply untouched_set_instances.
Qed.

Create HintDb frame.
#[local] Hint Resolve untouched_refl
  untouched_set_selectedPlaylistId
  untouched_set_player
  untouched_set_isPaused
  untouched_set_currentTrack
  untouched_set_deviceId
  untouched_set_playbackError
  untouched_set_tracks
  untouched_set_isLoadingTracks
  untouched_set_playerLoading
  untouched_set_accessTokenRef
  untouched_set_playerInitialized
  untouched_set_window_Spotify
  untouched_set_window_onSpotifyWebPlaybackSDKReady
  untouched_set_cleanup
  untouched_set_closures
  untouched_set_instances
  untouched_emit untouched_connect untouched_disconnect : frame.

(** The tests of the code are split where they head the goal. *)
#[local] Hint Extern 1 (untouched _ (if ?b then _ else _)) => destruct b : frame.
#[local] Hint Extern 1 (untouched _ (match ?x with _ => _ end)) => destruct x : frame.
#[local] Hint Extern 1 (untouched _ (let _ := _ in _)) => cbv zeta : frame.

Ltac frame := intros; auto 40 with frame.

Lemma untouched_token_effect (r s0 s : State) :
  untouched s0 s -> untouched s0 (token_effect r s).
Proof. unfold token_effect. frame. Qed.

Lemma untouched_initialize (cl : Closure) (s0 s : State) :
  untouched s0 s -> untouched s0 (initializeSpotifyPlayer cl s).
Proof. unfold initializeSpotifyPlayer. frame. Qed.

#[local] Hint Resolve untouched_token_effect untouched_initialize : frame.

Lemma untouched_sdk_effect (r s0 s : State) :
  untouched s0 s -> untouched s0 (sdk_effect r s).
Proof. unfold sdk_effect. frame. Qed.

Lemma untouched_sdk_cleanup (cl : Closure) (s0 s : State) :
  untouched s0 s -> untouched s0 (sdk_cleanup cl s).
Proof. unfold sdk_cleanup. frame. Qed.

#[local] Hint Resolve untouched_sdk_effect untouched_sdk_cleanup : frame.

Lemma untouched_run_cleanup (s0 s : State) :
  untouched s0 s -> untouched s0 (run_cleanup s).
Proof. unfold run_cleanup. frame. Qed.

#[local] Hint Resolve untouched_run_cleanup : frame.

Lemma untouched_rerun_sdk_effect (s : State) : untouched s (rerun_sdk_effect s).
Proof. unfold rerun_sdk_effect. frame. Qed.

Lemma untouched_sdk_script_loaded (s : State) : untouched s (sdk_script_loaded s).
Proof. unfold sdk_script_loaded. frame. Qed.

(** No listener of a player instance reads the session or sends a
    request. *)
Lemma untouched_listeners (s : State) :
  (forall h, untouched s (getOAuthToken h s))
  /\ (forall h device_id, untouched s (on_ready h device_id s))
  /\ (forall device_id, untouched s (on_not_ready device_id s))
  /\ (forall captured state, untouched s (on_player_state_changed captured state s))
  /\ (forall message, untouched s (on_initialization_error message s))
  /\ (forall message, untouched s (on_authentication_error message s))
  /\ (forall message, untouched s (on_account_error message s))
  /\ (forall message, untouched s (on_playback_error message s)).
Proof.
  unfold getOAuthToken, on_ready, on_not_ready, on_player_state_changed,
    on_initialization_error, on_authentication_error, on_account_error,
    on_playback_error.
  repeat apply conj; frame.
Qed.

Lemma untouched_listener (h : Handle) (f : Closure -> State -> State) (s : State) :
  (forall cl, untouched s (f cl s)) -> untouched s (listener h f s).
Proof. intros H. unfold listener. destruct (nth_error (instances s) h); frame. Qed.

Lemma untouched_transport (s : State) :
  untouched s (togglePlayPause s)
  /\ untouched s (skipNext s)
  /\ untouched s (skipPrevious s).
Proof. unfold togglePlayPause, skipNext, skipPrevious. repeat apply conj; frame. Qed.

(** *** After the session has ended *)

Lemma untouched_perform (a : Action) (s0 s : State) :
  untouched s0 s -> untouched s0 (perform a s).
Proof. destruct a; simpl; frame. Qed.

Lemma issued_awaiting (p : Task) : issued p [] = [] -> awaiting p = [].
Proof.
  induction p as [| a k IH | rq k _]; simpl; intros H; auto. discriminate H.
Qed.

(** A task that sends nothing before it returns. *)
Lemma untouched_exec (p : Task) (s0 s : State) :
  issued p [] = [] -> untouched s0 s -> untouched s0 (exec p s).
Proof.
  revert s. induction p as [| a k IH | rq k _]; simpl; intros s Hi Hs.
  - exact Hs.
  - apply IH; [exact Hi |]. now apply untouched_perform.
  - discriminate Hi.
Qed.

Lemma fetchPlaylistTracks_signed_out (r : State) :
  accessToken r = None -> issued (fetchPlaylistTracks r) [] = [].
Proof.
  intros H. unfold fetchPlaylistTracks. rewrite H. simpl.
  rewrite orb_true_r. reflexivity.
Qed.

Lemma playTrack_signed_out (r : State) (trackUri : string) :
  accessToken r = None -> issued (playTrack r trackUri) [] = [].
Proof.
  intros H. unfold playTrack. rewrite H. simpl.
  rewrite !orb_true_r. reflexivity.
Qed.

Lemma fetchPlaylistTracks_resume_quiet (rq : Request) :
  quiet (rq, fetchPlaylistTracks_resume).
Proof.
  intros [items | error]; simpl; [reflexivity |].
  destruct (is_401 error); reflexivity.
Qed.

Lemma Forall_remove_nth {A : Type} (P : A -> Prop) (i : nat) (l : list A) :
  Forall P l -> Forall P (remove_nth i l).
Proof.
  intros H. revert i. induction H as [| x l Hx Hl IH]; intros [| i]; simpl; auto.
Qed.

Lemma signed_out_untouched (s s' : State) :
  untouched s s' -> signed_out s -> signed_out s'.
Proof. intros [Hs Ht Hp _] (H1 & H2 & H3). repeat split; congruence. Qed.

Lemma set_pending_fields (q : list (Request * (Answer -> Task))) (s : State) :
  status (set_pending q s) = status s
  /\ accessToken (set_pending q s) = accessToken s
  /\ pending (set_pending q s) = q
  /\ log (set_pending q s) = log s.
Proof. by_fields s. auto. Qed.

Lemma deliver_signed_out (i : nat) (response : Answer) (s : State) :
  signed_out s ->
  signed_out (deliver i response s)
  /\ http (log (deliver i response s)) = http (log s).
Proof.
  intros Hs. unfold deliver.
  destruct (nth_error (pending s) i) as [[rq k] |] eqn:Hi; [| auto].
  destruct Hs as (H1 & H2 & H3).
  assert (Hq : quiet (rq, k)).
  { eapply Forall_forall; [exact H3 |]. eapply nth_error_In; exact Hi. }
  set (s1 := set_pending (remove_nth i (pending s)) s).
  assert (Hs1 : signed_out s1).
  { subst s1.
    destruct (set_pending_fields (remove_nth i (pending s)) s) as (E1 & E2 & E3 & _).
    unfold signed_out. rewrite E1, E2, E3.
    repeat split; auto. now apply Forall_remove_nth. }
  assert (Hu : untouched s1 (exec (k response) s1)).
  { apply untouched_exec; [apply Hq | apply untouched_refl]. }
  split; [exact (signed_out_untouched _ _ Hu Hs1) |].
  rewrite (keeps_http _ _ Hu). subst s1.
  destruct (set_pending_fields (remove_nth i (pending s)) s) as (_ & _ & _ & E4).
  now rewrite E4.
Qed.

Lemma step_untouched (e : Event) (s : State) :
  same_session e = true ->
  (forall i response, e <> Arrives i response) ->
  accessToken s = None ->
  untouched s (step e s).
Proof.
  intros He Hna Htok.
  destruct (untouched_listeners s) as (L1 & L2 & L3 & L4 & L5 & L6 & L7 & L8).
  destruct (untouched_transport s) as (T1 & T2 & T3).
  destruct e; try discriminate He; simpl;
    try (apply untouched_listener; intros cl; auto; fail).
  - (* mount *)
    unfold mount. apply untouched_exec.
    + now apply fetchPlaylistTracks_signed_out.
    + frame.
  - (* another playlist *)
    unfold select_playlist.
    destruct (same_string (selectedPlaylistId s) (Some playlistId)); [frame |].
    apply untouched_exec; [| frame].
    apply fetchPlaylistTracks_signed_out. by_fields s. exact Htok.
  - apply untouched_sdk_script_loaded.
  - apply untouched_rerun_sdk_effect.
  - exfalso. exact (Hna i response eq_refl).
  - apply untouched_exec; [| frame]. now apply playTrack_signed_out.
  - exact T1.
  - exact T2.
  - exact T3.
Qed.

Lemma step_signed_out (e : Event) (s : State) :
  same_session e = true ->
  signed_out s ->
  signed_out (step e s) /\ http (log (step e s)) = http (log s).
Proof.
  intros He Hs.
  destruct e;
    try (match goal with
         | |- context [Arrives _ _] => fail 1
         | _ => idtac
         end;
         assert (Hu : untouched s (step _ s))
           by (apply step_untouched;
                 [exact He | intros ? ?; discriminate | apply Hs]);
         split; [exact (signed_out_untouched _ _ Hu Hs) | apply Hu]).
  simpl. now apply deliver_signed_out.
Qed.

Lemma run_signed_out (es : list Event) (s : State) :
  forallb same_session es = true ->
  signed_out s ->
  signed_out (run es s) /\ http (log (run es s)) = http (log s).
Proof.
  revert s. induction es as [| e es IH]; intros s Hes Hs; simpl in *.
  - auto.
  - apply andb_true_iff in Hes. destruct Hes as [He Hes].
    destruct (step_signed_out e s He Hs) as [Hs' Hh].
    destruct (IH (step e s) Hes Hs') as [Hs'' Hh'].
    split; [exact Hs'' | congruence].
Qed.

(** The session library reports the end of the session. *)
Lemma session_ends (s : State) :
  Forall quiet (pending s) ->
  signed_out (session_change unauthenticated None s)
  /\ http (log (session_change unauthenticated None s)) = http (log s).
Proof.
  intros Hq. unfold session_change.
  set (r := set_accessToken None (set_status unauthenticated s)).
  assert (Hr : signed_out r /\ http (log r) = http (log s)).
  { subst r. unfold signed_out. by_fields s. auto. }
  destruct Hr as [Hr Hlog].
  assert (Hf : issued (fetchPlaylistTracks r) [] = []).
  { apply fetchPlaylistTracks_signed_out. apply Hr. }
  match goal with
  | |- signed_out ?s2 /\ _ => assert (Hu : untouched r s2)
  end.
  { destruct (negb (same_string (accessToken s) None));
      destruct (negb (same_status (status s) unauthenticated)); simpl;
      try apply untouched_exec; try exact Hf; frame. }
  split; [exact (signed_out_untouched _ _ Hu Hr) |].
  rewrite (keeps_http _ _ Hu). exact Hlog.
Qed.

(** The claim of C7 as the spec words it fails: the listener calls
    [signOut] but leaves the credential where it is.  The track
    selection that awaits its transfer goes on to send its play request
    with the old token, before and after the session has ended; and
    until the session has ended the track list is still shown, its
    rows can be clicked, and a click on one sends its transfer with
    that token. *)
Lemma catalog_calls_after_authentication_error :
  let s1 := step (AuthenticationError 0 "token rejected") transferring in
  map fst (pending transferring) = [TransferPlayback "dev" "tok"]
  /\ log s1 = log transferring ++ [SignOut]
  /\ accessToken s1 = Some "tok"
  /\ http (log (step (Arrives 0 (Resolved [])) s1))
     = http (log s1) ++ [PlayOnDevice "dev" "spotify:track:p1" "tok"]
  /\ http (log (run [SessionChange unauthenticated None; Arrives 0 (Resolved [])] s1))
     = http (log s1) ++ [PlayOnDevice "dev" "spotify:track:p1" "tok"]
  /\ let s1' := step (AuthenticationError 0 "token rejected") listening in
     render s1' = Controls
     /\ tracks s1' = [object (song "p1"); object (song "p2")]
     /\ offered (ClickTrack "spotify:track:p2") s1' = true
     /\ http (log (ui_step (ClickTrack "spotify:track:p2") s1'))
        = http (log s1') ++ [TransferPlayback "dev" "tok"]
     /\ http (log (step (ClickTrack "spotify:track:p2") s1'))
        = http (log s1') ++ [TransferPlayback "dev" "tok"].
Proof. repeat split. Qed.

(** The continuation of a play request sends nothing more. *)
Lemma play_request_quiet (rq : Request) :
  quiet (rq, fun step2 : Answer =>
               match step2 with
               | Resolved _ => Return
               | Rejected error => playTrack_catch error
               end).
Proof.
  intros [data | error]; simpl; [reflexivity |]. apply playTrack_catch_issued.
Qed.

(** Only [useSession] changes the session: no listener, click, answer
    or effect of the component writes [status] or [accessToken]. *)
Lemma session_kept_refl (s : State) : session_kept s s.
Proof. split; reflexivity. Qed.

Lemma session_kept_trans (s1 s2 s3 : State) :
  session_kept s1 s2 -> session_kept s2 s3 -> session_kept s1 s3.
Proof. intros [] []. split; congruence. Qed.

Lemma untouched_session_kept (s s' : State) :
  untouched s s' -> session_kept s s'.
Proof. intros [H1 H2 _ _]. split; assumption. Qed.

Lemma session_kept_perform (a : Action) (s : State) :
  session_kept s (perform a s).
Proof. destruct a; by_fields s; split; reflexivity. Qed.

Lemma session_kept_exec (p : Task) (s : State) : session_kept s (exec p s).
Proof.
  revert s. induction p as [| a k IH | rq k _]; intros s; simpl.
  - apply session_kept_refl.
  - eapply session_kept_trans; [apply session_kept_perform | apply IH].
  - by_fields s. split; reflexivity.
Qed.

Lemma session_kept_deliver (i : nat) (response : Answer) (s : State) :
  session_kept s (deliver i response s).
Proof.
  unfold deliver. destruct (nth_error (pending s) i) as [[rq k] |].
  - eapply session_kept_trans; [| apply session_kept_exec].
    by_fields s. split; reflexivity.
  - apply session_kept_refl.
Qed.

Lemma session_kept_step (e : Event) (s : State) :
  same_session e = true -> session_kept s (step e s).
Proof.
  intros He.
  destruct (untouched_listeners s) as (L1 & L2 & L3 & L4 & L5 & L6 & L7 & L8).
  destruct (untouched_transport s) as (T1 & T2 & T3).
  destruct e; try discriminate He; simpl;
    try (apply untouched_session_kept, untouched_listener; intros cl; auto; fail).
  - (* mount *)
    unfold mount.
    eapply session_kept_trans; [| apply session_kept_exec].
    apply untouched_session_kept. frame.
  - (* another playlist *)
    unfold select_playlist.
    destruct (same_string (selectedPlaylistId s) (Some playlistId));
      [apply session_kept_refl |].
    eapply session_kept_trans; [| apply session_kept_exec].
    apply untouched_session_kept. frame.
  - apply untouched_session_kept, untouched_sdk_script_loaded.
  - apply untouched_session_kept, untouched_rerun_sdk_effect.
  - apply session_kept_deliver.
  - apply session_kept_exec.
  - exact (untouched_session_kept _ _ T1).
  - exact (untouched_session_kept _ _ T2).
  - exact (untouched_session_kept _ _ T3).
Qed.

Lemma session_kept_run (es : list Event) (s : State) :
  forallb same_session es = true -> session_kept s (run es s).
Proof.
  revert s. induction es as [| e es IH]; intros s Hes; simpl in *.
  - apply session_kept_refl.
  - apply andb_true_iff in Hes. destruct Hes as [He Hes].
    eapply session_kept_trans; [apply session_kept_step, He | apply IH, Hes].
Qed.

(** The end of the session as the component sees it, whatever is still
    in flight. *)
Lemma session_ends_status (s : State) :
  status (session_change unauthenticated None s) = unauthenticated
  /\ accessToken (session_change unauthenticated None s) = None.
Proof.
  unfold session_change.
  set (r := set_accessToken None (set_status unauthenticated s)).
  assert (Hr : status r = unauthenticated /\ accessToken r = None)
    by (subst r; by_fields s; auto).
  match goal with
  | |- status ?s2 = _ /\ _ => assert (Hk : session_kept r s2)
  end.
  { destruct (negb (same_string (accessToken s) None));
      destruct (negb (same_status (status s) unauthenticated)); simpl;
      try (eapply session_kept_trans; [| apply session_kept_exec]);
      apply untouched_session_kept; frame. }
  destruct Hk as [K1 K2]. destruct Hr as [R1 R2]. split; congruence.
Qed.

(** C7, amended.  Whenever a player instance reports
    [authentication_error], in any state of the component (a transfer
    in flight included), the listener calls [signOut] once and nothing
    else outside the component: no Web API request is sent or left
    waiting, and the session token is left as it was; it sets
    "Authentication Error: ... Please re-login.", which a signed-in
    component displays.  Whatever happens between the error and the end
    of the session, once the session library has ended the session the
    mounted component holds no token and shows the log-in prompt
    through any later events short of a new session; and it sends no
    Web API request through them, provided that at the end of the
    session no track selection is still awaiting the answer to its
    transfer. *)
Theorem authentication_error_forces_sign_out
    (s : State) (h : Handle) (message : string) (between es : list Event) :
  h < List.length (instances s) ->
  forallb same_session es = true ->
  let s1 := step (AuthenticationError h message) s in
  let sx := run between s1 in
  let s2 := step (SessionChange unauthenticated None) sx in
  log s1 = log s ++ [SignOut]
  /\ pending s1 = pending s
  /\ playbackError s1
     = Some ("Authentication Error: " ++ message ++ ". Please re-login.")%string
  /\ playerInitialized s1 = false
  /\ accessToken s1 = accessToken s
  /\ (status s = authenticated -> shows_error (render s1) = true)
  /\ render (run es s2) = LoginPrompt
  /\ accessToken (run es s2) = None
  /\ (Forall quiet (pending sx) ->
      http (log (run es s2)) = http (log sx)).
Proof.
  intros Hh Hes s1 sx s2.
  assert (E1 : s1 = on_authentication_error message s).
  { subst s1. simpl. unfold listener.
    destruct (nth_error (instances s) h) eqn:Hi; [reflexivity |].
    apply nth_error_None in Hi. lia. }
  assert (F : log s1 = log s ++ [SignOut]
              /\ pending s1 = pending s
              /\ playbackError s1
                 = Some ("Authentication Error: " ++ message ++ ". Please re-login.")%string
              /\ playerLoading s1 = false
              /\ status s1 = status s
              /\ playerInitialized s1 = false
              /\ accessToken s1 = accessToken s).
  { rewrite E1. unfold on_authentication_error. by_fields s. auto 10. }
  destruct F as (F1 & F2 & F3 & F4 & F5 & F6 & F7).
  destruct (session_ends_status sx) as [Z1 Z2].
  destruct (session_kept_run es s2 Hes) as [K1 K2].
  split; [exact F1 |]. split; [exact F2 |]. split; [exact F3 |].
  split; [exact F6 |]. split; [exact F7 |].
  split; [| split; [| split]].
  - intros Hst. unfold render. rewrite F5, Hst, F4. simpl.
    destruct (negb (is_some (player s1)) || negb (truthy (deviceId s1)));
      reflexivity.
  - unfold render. rewrite K1. subst s2. simpl. rewrite Z1. reflexivity.
  - rewrite K2. subst s2. simpl. exact Z2.
  - intros Hq.
    destruct (session_ends sx Hq) as [Hout Hlog].
    destruct (run_signed_out es s2 Hes Hout) as [_ Hlog'].
    rewrite Hlog'. subst s2. simpl. exact Hlog.
Qed.

(** The error arrives while a transfer is in flight; the transfer is
    then answered and the play request sent; then the session ends. *)
Lemma authentication_error_forces_sign_out_witness :
  let between := [Arrives 0 (Resolved [])] in
  let es := [Arrives 0 (Resolved []); ClickTrack "spotify:track:p2";
             SelectPlaylist "Q"; ClickNext; Ready 0 "dev"; RerunSdkEffect] in
  let s1 := step (AuthenticationError 0 "token rejected") transferring in
  let sx := run between s1 in
  let s2 := step (SessionChange unauthenticated None) sx in
  log s1 = log transferring ++ [SignOut]
  /\ pending s1 = pending transferring
  /\ playbackError s1
     = Some ("Authentication Error: " ++ "token rejected" ++ ". Please re-login.")%string
  /\ playerInitialized s1 = false
  /\ accessToken s1 = accessToken transferring
  /\ shows_error (render s1) = true
  /\ render (run es s2) = LoginPrompt
  /\ accessToken (run es s2) = None
  /\ http (log (run es s2)) = http (log sx).
Proof.
  destruct (authentication_error_forces_sign_out transferring 0 "token rejected"
              [Arrives 0 (Resolved [])]
              [Arrives 0 (Resolved []); ClickTrack "spotify:track:p2";
               SelectPlaylist "Q"; ClickNext; Ready 0 "dev"; RerunSdkEffect])
    as (A1 & A2 & A3 & A4 & A5 & A6 & A7 & A8 & A9).
  - simpl. lia.
  - reflexivity.
  - repeat (split; [assumption |]).
    split; [apply A6; reflexivity |].
    split; [exact A7 |]. split; [exact A8 |].
    apply A9. constructor; [apply play_request_quiet | constructor].
Defined.

(** *** Further properties of the component *)

(** Unfold a state and split on every test of the code. *)
Ltac crush s :=
  destruct s; cbn;
  repeat (match goal with
          | |- context [if ?b then _ else _] => destruct b
          | |- context [match ?x with _ => _ end] => destruct x
          end; cbn);
  auto.

(** X9.  When a playlist-track request is rejected, the tracks shown
    stay as they were, the fixed error message is set, the loading flag
    is reset, no request is sent, and the user is signed out exactly
    when the status is 401. *)
Theorem rejected_track_fetch_keeps_list
    (s : State) (i : nat) (playlistId token : string) (error : ApiError) :
  nth_error (pending s) i
    = Some (GetPlaylistTracks playlistId token 50, fetchPlaylistTracks_resume) ->
  let s' := step (Arrives i (Rejected error)) s in
  tracks s' = tracks s
  /\ playbackError s' = Some "Failed to load playlist tracks. Please try again."
  /\ isLoadingTracks s' = false
  /\ log s' = log s ++ (if is_401 error then [SignOut] else [])
  /\ pending s' = remove_nth i (pending s)
  /\ selectedPlaylistId s' = selectedPlaylistId s.
Proof.
  intros Hp s'. subst s'. simpl. unfold deliver. rewrite Hp.
  cbn [fetchPlaylistTracks_resume exec].
  destruct (is_401 error); by_fields s; rewrite ?app_nil_r; auto 7.
Qed.

Lemma rejected_track_fetch_keeps_list_witness :
  let s' := step (Arrives 0 (Rejected unauthorized_tracks)) showing_Q in
  tracks s' = tracks showing_Q
  /\ playbackError s' = Some "Failed to load playlist tracks. Please try again."
  /\ isLoadingTracks s' = false
  /\ log s' = log showing_Q ++ (if is_401 unauthorized_tracks then [SignOut] else [])
  /\ pending s' = remove_nth 0 (pending showing_Q)
  /\ selectedPlaylistId s' = selectedPlaylistId showing_Q.
Proof.
  apply (rejected_track_fetch_keeps_list showing_Q 0 "P" "tok" unauthorized_tracks).
  reflexivity.
Defined.

(** X10.  A track selection that passes its guards changes the
    component only when a request fails: a rejected transfer, or a
    rejected play request after a successful transfer, sets "Failed to
    play track: <detail>." with the Web API's message when it has one
    and the error's own message otherwise, and signs out exactly on
    status 401; when both requests succeed no update is made at all. *)
Theorem playTrack_failure_reported
    (r : State) (trackUri : string) (error : ApiError) (rest : list Answer) :
  not_ready r = false ->
  is_str (playbackError r) premium_required_message = false ->
  let report :=
    setPlaybackError (Some ("Failed to play track: " ++ detail error ++ "."))%string
    :: (if is_401 error then [signOut] else []) in
  performed (playTrack r trackUri) (Rejected error :: rest) = report
  /\ (forall data,
        performed (playTrack r trackUri) (Resolved data :: Rejected error :: rest)
        = report)
  /\ (forall data data',
        performed (playTrack r trackUri) (Resolved data :: Resolved data' :: rest)
        = []).
Proof.
  intros Hn Hp report. subst report.
  unfold playTrack. fold (not_ready r). rewrite Hn, Hp.
  cbn [performed]. unfold playTrack_catch. fold (detail error).
  destruct (is_401 error); repeat split.
Qed.

Lemma playTrack_failure_reported_witness :
  let report :=
    setPlaybackError (Some ("Failed to play track: " ++ detail forbidden ++ "."))%string
    :: (if is_401 forbidden then [signOut] else []) in
  performed (playTrack listening "spotify:track:p1") [Rejected forbidden] = report
  /\ (forall data,
        performed (playTrack listening "spotify:track:p1")
                  [Resolved data; Rejected forbidden] = report)
  /\ (forall data data',
        performed (playTrack listening "spotify:track:p1")
                  [Resolved data; Resolved data'] = []).
Proof.
  apply (playTrack_failure_reported listening "spotify:track:p1" forbidden []);
    reflexivity.
Defined.

(** *** The token given to the SDK *)

Lemma tokens_kept_refl (s : State) : tokens_kept s s.
Proof. split; reflexivity. Qed.

Lemma tokens_kept_trans (s1 s2 s3 : State) :
  tokens_kept s1 s2 -> tokens_kept s2 s3 -> tokens_kept s1 s3.
Proof. intros [] []. split; congruence. Qed.

Lemma ref_synced_kept (s s' : State) :
  tokens_kept s s' -> ref_synced s -> ref_synced s'.
Proof. unfold ref_synced. intros [-> ->] H. exact H. Qed.

Lemma tokens_kept_perform (a : Action) (s : State) : tokens_kept s (perform a s).
Proof. destruct a; by_fields s; split; reflexivity. Qed.

Lemma tokens_kept_exec (p : Task) (s : State) : tokens_kept s (exec p s).
Proof.
  revert s. induction p as [| a k IH | rq k _]; intros s; simpl.
  - apply tokens_kept_refl.
  - eapply tokens_kept_trans; [apply tokens_kept_perform | apply IH].
  - by_fields s. split; reflexivity.
Qed.

Lemma tokens_kept_initialize (cl : Closure) (s : State) :
  tokens_kept s (initializeSpotifyPlayer cl s).
Proof. unfold tokens_kept, initializeSpotifyPlayer. crush s. Qed.

Lemma tokens_kept_sdk_cleanup (cl : Closure) (s : State) :
  tokens_kept s (sdk_cleanup cl s).
Proof. unfold tokens_kept, sdk_cleanup. crush s. Qed.

Lemma tokens_kept_run_cleanup (s : State) : tokens_kept s (run_cleanup s).
Proof.
  unfold run_cleanup. destruct (cleanup s).
  - apply tokens_kept_sdk_cleanup.
  - apply tokens_kept_refl.
Qed.

Lemma tokens_kept_set_cleanup (c : option Closure) (s : State) :
  tokens_kept s (set_cleanup c s).
Proof. by_fields s. split; reflexivity. Qed.

Lemma tokens_kept_sdk_effect (r s : State) : tokens_kept s (sdk_effect r s).
Proof.
  unfold sdk_effect.
  destruct (negb (is_authenticated (status r)) || negb (truthy (accessTokenRef s))
            || playerInitialized s).
  - unfold tokens_kept. destruct (player r); crush s.
  - cbv zeta.
    eapply tokens_kept_trans; [| apply tokens_kept_set_cleanup].
    match goal with
    | |- tokens_kept _ (if ?c then _ else _) => destruct c
    end;
      [eapply tokens_kept_trans; [| apply tokens_kept_initialize] |];
      unfold tokens_kept; crush s.
Qed.

Lemma tokens_kept_listener (h : Handle) (f : Closure -> State -> State) (s : State) :
  (forall cl, tokens_kept s (f cl s)) -> tokens_kept s (listener h f s).
Proof.
  intros H. unfold listener. destruct (nth_error (instances s) h); auto.
  apply tokens_kept_refl.
Qed.

Lemma tokens_kept_deliver (i : nat) (response : Answer) (s : State) :
  tokens_kept s (deliver i response s).
Proof.
  unfold deliver. destruct (nth_error (pending s) i) as [[rq k] |].
  - eapply tokens_kept_trans; [| apply tokens_kept_exec].
    by_fields s. split; reflexivity.
  - apply tokens_kept_refl.
Qed.

Lemma same_string_eq (a b : option string) : same_string a b = true -> a = b.
Proof.
  destruct a as [x |], b as [y |]; simpl; intros H; try discriminate H; auto.
  apply String.eqb_eq in H. now subst.
Qed.

Lemma same_string_neq (a b : option string) : same_string a b = false -> a <> b.
Proof.
  destruct a as [x |], b as [y |]; simpl; intros H; try discriminate H;
    try (intros E; discriminate E).
  apply String.eqb_neq in H. intros [= E]. contradiction.
Qed.

(** The first effect brings the ref in line with the session of the
    render. *)
Lemma token_effect_syncs (r s : State) :
  accessToken s = accessToken r -> ref_synced (token_effect r s).
Proof.
  intros H. unfold ref_synced, token_effect.
  destruct (truthy (accessToken r)) eqn:Ht; by_fields s; subst; rewrite Ht; reflexivity.
Qed.

Lemma mount_syncs (s : State) : ref_synced (mount s).
Proof.
  unfold mount.
  eapply ref_synced_kept; [apply tokens_kept_exec |].
  eapply ref_synced_kept; [apply tokens_kept_sdk_effect |].
  now apply token_effect_syncs.
Qed.

Lemma session_change_syncs (st : Status) (token : option string) (s : State) :
  ref_synced s -> ref_synced (session_change st token s).
Proof.
  intros Hs. unfold session_change.
  set (r := set_accessToken token (set_status st s)).
  assert (Hr : accessToken r = token) by (subst r; by_fields s).
  destruct (same_string (accessToken s) token) eqn:Hsame; cbn [negb orb].
  - (* the token is the one the ref already follows *)
    apply same_string_eq in Hsame.
    assert (Hsr : ref_synced r).
    { unfold ref_synced in *. subst r. by_fields s. rewrite <- Hsame. exact Hs. }
    destruct (negb (same_status (status s) st)).
    + eapply ref_synced_kept; [apply tokens_kept_sdk_effect |].
      eapply ref_synced_kept; [apply tokens_kept_run_cleanup | exact Hsr].
    + exact Hsr.
  - eapply ref_synced_kept; [apply tokens_kept_exec |].
    eapply ref_synced_kept; [apply tokens_kept_sdk_effect |].
    apply token_effect_syncs.
    apply (proj2 (tokens_kept_run_cleanup r)).
Qed.

Lemma step_syncs (e : Event) (s : State) : ref_synced s -> ref_synced (step e s).
Proof.
  intros Hs. destruct e; simpl.
  - apply mount_syncs.
  - unfold select_playlist.
    destruct (same_string (selectedPlaylistId s) (Some playlistId)); [exact Hs |].
    eapply ref_synced_kept; [apply tokens_kept_exec |].
    unfold ref_synced in *. by_fields s. exact Hs.
  - now apply session_change_syncs.
  - unfold sdk_script_loaded.
    assert (H0 : ref_synced (set_window_Spotify true s))
      by (unfold ref_synced in *; by_fields s; exact Hs).
    destruct (window_onSpotifyWebPlaybackSDKReady (set_window_Spotify true s));
      [| exact H0].
    eapply ref_synced_kept; [apply tokens_kept_initialize | exact H0].
  - unfold rerun_sdk_effect.
    eapply ref_synced_kept; [apply tokens_kept_sdk_effect |].
    eapply ref_synced_kept; [apply tokens_kept_run_cleanup | exact Hs].
  - eapply ref_synced_kept; [apply tokens_kept_listener | exact Hs].
    intros _. unfold tokens_kept, getOAuthToken. crush s.
  - eapply ref_synced_kept; [apply tokens_kept_listener | exact Hs].
    intros _. unfold tokens_kept, on_ready. crush s.
  - eapply ref_synced_kept; [apply tokens_kept_listener | exact Hs].
    intros _. unfold tokens_kept, on_not_ready. crush s.
  - eapply ref_synced_kept; [apply tokens_kept_listener | exact Hs].
    intros cl. unfold tokens_kept, on_player_state_changed. crush s.
  - eapply ref_synced_kept; [apply tokens_kept_listener | exact Hs].
    intros _. unfold tokens_kept, on_initialization_error. crush s.
  - eapply ref_synced_kept; [apply tokens_kept_listener | exact Hs].
    intros _. unfold tokens_kept, on_authentication_error. crush s.
  - eapply ref_synced_kept; [apply tokens_kept_listener | exact Hs].
    intros _. unfold tokens_kept, on_account_error. crush s.
  - eapply ref_synced_kept; [apply tokens_kept_listener | exact Hs].
    intros _. unfold tokens_kept, on_playback_error. crush s.
  - eapply ref_synced_kept; [apply tokens_kept_deliver | exact Hs].
  - eapply ref_synced_kept; [apply tokens_kept_exec | exact Hs].
  - eapply ref_synced_kept; [| exact Hs].
    unfold tokens_kept, togglePlayPause. crush s.
  - eapply ref_synced_kept; [| exact Hs].
    unfold tokens_kept, skipNext. crush s.
  - eapply ref_synced_kept; [| exact Hs].
    unfold tokens_kept, skipPrevious. crush s.
Qed.

Lemma run_syncs (es : list Event) (s : State) : ref_synced s -> ref_synced (run es s).
Proof.
  revert s. induction es as [| e es IH]; intros s Hs; simpl; [exact Hs |].
  apply IH. now apply step_syncs.
Qed.

(** X11.  From the moment the component is mounted, whatever happens,
    the token ref follows the session: when the SDK asks instance [h]
    for a token it is given the session's current access token, and
    when the session has none the component signs out instead. *)
Theorem sdk_is_given_the_session_token
    (s0 : State) (es : list Event) (h : Handle) :
  let s := run es (mount s0) in
  h < List.length (instances s) ->
  ref_synced s
  /\ (truthy (accessToken s) = true ->
      step (TokenRequested h) s = emit (OAuthToken h (str (accessToken s))) s)
  /\ (truthy (accessToken s) = false ->
      log (step (TokenRequested h) s) = log s ++ [SignOut]
      /\ playbackError (step (TokenRequested h) s)
         = Some "Authentication required to initialize player.").
Proof.
  intros s Hh.
  assert (Hs : ref_synced s) by (apply run_syncs, mount_syncs).
  assert (Hl : step (TokenRequested h) s = getOAuthToken h s).
  { simpl. unfold listener.
    destruct (nth_error (instances s) h) eqn:Hi; [reflexivity |].
    apply nth_error_None in Hi. lia. }
  rewrite Hl. unfold getOAuthToken. unfold ref_synced in Hs. rewrite Hs.
  split; [exact Hs |]. split; intros Ht; rewrite Ht.
  - rewrite Ht. reflexivity.
  - simpl. by_fields s. auto.
Qed.

Lemma sdk_is_given_the_session_token_witness :
  let s := run [SessionChange authenticated (Some "tok2"); Ready 1 "dev"]
               (mount (initial authenticated (Some "tok") true)) in
  ref_synced s
  /\ (truthy (accessToken s) = true ->
      step (TokenRequested 1) s = emit (OAuthToken 1 (str (accessToken s))) s)
  /\ (truthy (accessToken s) = false ->
      log (step (TokenRequested 1) s) = log s ++ [SignOut]
      /\ playbackError (step (TokenRequested 1) s)
         = Some "Authentication required to initialize player.").
Proof.
  apply (sdk_is_given_the_session_token (initial authenticated (Some "tok") true)
           [SessionChange authenticated (Some "tok2"); Ready 1 "dev"] 1).
  simpl. lia.
Defined.

(** *** The end of the session *)

Lemma set_connected_at (h : Handle) (b : bool) (l : list Instance) (i : Instance) :
  nth_error (set_connected h b l) h = Some i -> connected i = b.
Proof.
  revert h. induction l as [| x l IH]; intros [| h]; simpl; try discriminate.
  - intros [= <-]. reflexivity.
  - apply IH.
Qed.

Lemma set_connected_length (h : Handle) (b : bool) (l : list Instance) :
  List.length (set_connected h b l) = List.length l.
Proof.
  revert h. induction l as [| x l IH]; intros [| h]; simpl; auto.
Qed.

(** The body of the SDK effect for a render without a session. *)
Lemma sdk_effect_signed_out (r s : State) :
  is_authenticated (status r) = false ->
  sdk_effect r s =
  set_cleanup None
    match player r with
    | Some p => set_playerLoading false (set_player None (player_disconnect p s))
    | None => s
    end.
Proof.
  intros H. unfold sdk_effect. rewrite H. cbn [negb orb].
  destruct (player r); reflexivity.
Qed.

(** X12.  When the session ends while the component is mounted, the
    handle it holds is disconnected and dropped, the token ref and the
    track list are emptied, no request is sent, and the log-in prompt
    is rendered. *)
Theorem session_end_tears_down (s : State) (token : string) :
  accessToken s = Some token ->
  let s' := step (SessionChange unauthenticated None) s in
  player s' = None
  /\ accessTokenRef s' = None
  /\ tracks s' = []
  /\ cleanup s' = None
  /\ render s' = LoginPrompt
  /\ http (log s') = http (log s)
  /\ pending s' = pending s
  /\ forall p, player s = Some p ->
       In (disconnect p) (log s')
       /\ forall i, nth_error (instances s') p = Some i -> connected i = false.
Proof.
  intros Htok s'. subst s'. cbn [step]. unfold session_change.
  rewrite Htok. cbn [same_string negb orb].
  set (r := set_accessToken None (set_status unauthenticated s)).
  assert (Hr : status r = unauthenticated /\ accessToken r = None
               /\ player r = player s /\ selectedPlaylistId r = selectedPlaylistId s
               /\ pending r = pending s /\ log r = log s)
    by (subst r; by_fields s; auto 7).
  destruct Hr as (Hst & Hnone & Hpl & _ & Hpend & Hlog).
  set (s1 := token_effect r (run_cleanup r)).
  assert (Hfetch : fetchPlaylistTracks r = Do (setTracks []) Return).
  { unfold fetchPlaylistTracks. rewrite Hnone. cbn [truthy negb].
    rewrite orb_true_r. reflexivity. }
  rewrite Hfetch, sdk_effect_signed_out by (rewrite Hst; reflexivity).
  cbn [exec perform].
  assert (Hu : untouched r s1) by (subst s1; auto 10 with frame).
  assert (Hp1 : player s = None -> player s1 = None).
  { intros Hn. subst s1. unfold token_effect, run_cleanup.
    rewrite Hnone. cbn [truthy].
    assert (Hrp : player r = None) by congruence.
    destruct (cleanup r); [unfold sdk_cleanup |]; revert Hrp; clear; crush r. }
  assert (Href : accessTokenRef s1 = None).
  { subst s1. unfold token_effect. rewrite Hnone. cbn [truthy].
    by_fields (run_cleanup r). }
  rewrite Hpl.
  destruct (player s) as [p |] eqn:Hp.
  - unfold player_disconnect, emit.
    by_fields s1. subst.
    destruct Hu as [E1 E2 E3 E4]. simpl in *.
    rewrite E1, Hst. simpl. rewrite http_app, E4, Hlog. simpl. rewrite app_nil_r.
    repeat split; auto; try congruence;
      match goal with H : Some p = Some _ |- _ => injection H as <- end.
    + apply in_or_app. right. simpl. auto.
    + apply set_connected_at.
  - specialize (Hp1 eq_refl).
    by_fields s1. subst.
    destruct Hu as [E1 E2 E3 E4]. simpl in *.
    rewrite E1, Hst. simpl. rewrite E4, Hlog.
    repeat split; auto; try congruence; discriminate.
Qed.

Lemma session_end_tears_down_witness :
  let s' := step (SessionChange unauthenticated None) listening in
  player s' = None
  /\ accessTokenRef s' = None
  /\ tracks s' = []
  /\ cleanup s' = None
  /\ render s' = LoginPrompt
  /\ http (log s') = http (log listening)
  /\ pending s' = pending listening
  /\ forall p, player listening = Some p ->
       In (disconnect p) (log s')
       /\ forall i, nth_error (instances s') p = Some i -> connected i = false.
Proof.
  apply (session_end_tears_down listening "tok"). reflexivity.
Defined.

(** *** Snapshots of the playback state *)

Lemma snapshot_forwarded (s : State) (h : Handle) (st : PlaybackState) :
  h < List.length (instances s) ->
  let s' := step (PlayerStateChanged h (Some st)) s in
  log s' = log s ++ forwarded [st]
  /\ instances s' = instances s
  /\ isPaused s' = paused st
  /\ currentTrack s' = Some (current_track st).
Proof.
  intros Hh s'. subst s'. simpl. unfold listener.
  destruct (nth_error (instances s) h) as [i |] eqn:Hi.
  - unfold on_player_state_changed.
    destruct (premium_required st);
      [| destruct (is_str (cl_playbackError (listeners i)) premium_required_message)];
      by_fields s; rewrite <- app_assoc; auto.
  - apply nth_error_None in Hi. lia.
Qed.

(** X13.  The snapshots an instance reports are handed to the parent one
    by one, each exactly once and in the order of arrival (track first,
    then state), and the component keeps the paused flag and the track
    of the last one. *)
Theorem snapshots_forwarded_in_order
    (s : State) (h : Handle) (sts : list PlaybackState) (st : PlaybackState) :
  h < List.length (instances s) ->
  let s' := run (snapshots h (sts ++ [st])) s in
  log s' = log s ++ forwarded (sts ++ [st])
  /\ isPaused s' = paused st
  /\ currentTrack s' = Some (current_track st).
Proof.
  revert s. induction sts as [| st0 sts IH]; intros s Hh s'; subst s'.
  - destruct (snapshot_forwarded s h st Hh) as (Hl & _ & Hp & Hc).
    simpl in *. auto.
  - destruct (snapshot_forwarded s h st0 Hh) as (Hl & Hi & _ & _).
    cbn [app snapshots map run]. fold (snapshots h (sts ++ [st])).
    assert (Hh' : h < List.length (instances (step (PlayerStateChanged h (Some st0)) s)))
      by (rewrite Hi; exact Hh).
    destruct (IH _ Hh') as (Hl' & Hp & Hc).
    rewrite Hl', Hl. cbn [forwarded flat_map] in *.
    rewrite <- !app_assoc. auto.
Qed.

Lemma snapshots_forwarded_in_order_witness :
  let s' := run (snapshots 0 ([premium_snapshot] ++ [unrestricted_snapshot])) ready in
  log s' = log ready ++ forwarded ([premium_snapshot] ++ [unrestricted_snapshot])
  /\ isPaused s' = paused unrestricted_snapshot
  /\ currentTrack s' = Some (current_track unrestricted_snapshot).
Proof.
  apply (snapshots_forwarded_in_order ready 0 [premium_snapshot] unrestricted_snapshot).
  simpl. lia.
Defined.

(** *** Errors of the device *)

Lemma listener_runs (h : Handle) (f : Closure -> State -> State) (s : State) :
  h < List.length (instances s) ->
  exists i, nth_error (instances s) h = Some i /\ listener h f s = f (listeners i) s.
Proof.
  intros Hh. unfold listener.
  destruct (nth_error (instances s) h) as [i |] eqn:Hi; [eauto |].
  apply nth_error_None in Hi. lia.
Qed.

(** X14.  An [initialization_error], [account_error], [playback_error]
    or [not_ready] event of an instance ends the "Initializing" view of
    a signed-in component and puts its message on display, without a
    request and without signing out.  The first two re-arm the
    initialisation guard; [playback_error] and [not_ready] leave it as
    it is, and [not_ready] forgets the device id but keeps the handle. *)
Theorem device_errors_are_displayed
    (s : State) (h : Handle) (m device_id : string) :
  h < List.length (instances s) ->
  status s = authenticated ->
  (let s' := step (InitializationError h m) s in
   playbackError s' = Some ("Initialization Error: " ++ m ++ ".")%string
   /\ shows_error (render s') = true /\ log s' = log s
   /\ playerInitialized s' = false)
  /\ (let s' := step (AccountError h m) s in
      playbackError s' = Some ("Account Error: " ++ m ++ ".")%string
      /\ shows_error (render s') = true /\ log s' = log s
      /\ playerInitialized s' = false)
  /\ (let s' := step (PlaybackError h m) s in
      playbackError s' = Some ("Playback Error: " ++ m ++ ".")%string
      /\ shows_error (render s') = true /\ log s' = log s
      /\ playerInitialized s' = playerInitialized s)
  /\ (let s' := step (NotReady h device_id) s in
      playbackError s'
      = Some "Spotify device is offline or unavailable. Ensure Spotify is running."
      /\ render s' = ConnectionFailed /\ log s' = log s
      /\ playerInitialized s' = playerInitialized s
      /\ deviceId s' = None /\ player s' = player s).
Proof.
  intros Hh Hst.
  assert (Hview : forall s', status s' = authenticated -> playerLoading s' = false ->
                             shows_error (render s') = true).
  { intros s' H1 H2. unfold render. rewrite H1, H2. simpl.
    destruct (negb (is_some (player s')) || negb (truthy (deviceId s')));
      reflexivity. }
  repeat apply conj; cbn [step];
    match goal with
    | |- context [listener h ?f s] =>
        destruct (listener_runs h f s Hh) as (i & _ & ->)
    end;
    cbv beta;
    try (apply Hview;
         [ unfold on_initialization_error, on_account_error, on_playback_error;
           by_fields s; exact Hst
         | unfold on_initialization_error, on_account_error, on_playback_error;
           by_fields s ]);
    try (unfold on_initialization_error, on_account_error, on_playback_error,
           on_not_ready; by_fields s; fail).
  unfold on_not_ready, render. by_fields s. subst.
  simpl. rewrite orb_true_r. reflexivity.
Qed.

Lemma device_errors_are_displayed_witness :
  (let s' := step (InitializationError 0 "no EME") connecting in
   playbackError s' = Some ("Initialization Error: " ++ "no EME" ++ ".")%string
   /\ shows_error (render s') = true /\ log s' = log connecting
   /\ playerInitialized s' = false)
  /\ (let s' := step (AccountError 0 "no EME") connecting in
      playbackError s' = Some ("Account Error: " ++ "no EME" ++ ".")%string
      /\ shows_error (render s') = true /\ log s' = log connecting
      /\ playerInitialized s' = false)
  /\ (let s' := step (PlaybackError 0 "no EME") connecting in
      playbackError s' = Some ("Playback Error: " ++ "no EME" ++ ".")%string
      /\ shows_error (render s') = true /\ log s' = log connecting
      /\ playerInitialized s' = playerInitialized connecting)
  /\ (let s' := step (NotReady 0 "dev") connecting in
      playbackError s'
      = Some "Spotify device is offline or unavailable. Ensure Spotify is running."
      /\ render s' = ConnectionFailed /\ log s' = log connecting
      /\ playerInitialized s' = playerInitialized connecting
      /\ deviceId s' = None /\ player s' = player connecting).
Proof.
  apply (device_errors_are_displayed connecting 0 "no EME" "dev").
  - simpl. lia.
  - reflexivity.
Defined.

(** *** Connecting instances *)

Lemma set_connected_last (l : list Instance) (x : Instance) (b : bool) :
  set_connected (List.length l) b (l ++ [x])
  = l ++ [{| connected := b; listeners := listeners x |}].
Proof. induction l as [| y l IH]; simpl; [reflexivity | now rewrite IH]. Qed.

Lemma live_after_connect (l : list Instance) (cl : Closure) :
  List.length (filter connected (l ++ [{| connected := true; listeners := cl |}]))
  = S (List.length (filter connected l)).
Proof. rewrite filter_app, length_app. simpl. lia. Qed.

Lemma initialize_connects (cl : Closure) (s : State) :
  truthy (accessTokenRef s) = true ->
  window_Spotify s = true ->
  playerInitialized s = false ->
  cl_player cl = None ->
  let s' := initializeSpotifyPlayer cl s in
  instances s' = instances s ++ [{| connected := true; listeners := cl |}]
  /\ log s' = log s ++ [connect (List.length (instances s))]
  /\ accessTokenRef s' = accessTokenRef s
  /\ window_Spotify s' = window_Spotify s
  /\ playerInitialized s' = false
  /\ player s' = player s.
Proof.
  intros Ht Hw Hf Hc s'. subst s'. unfold initializeSpotifyPlayer.
  rewrite Ht, Hw, Hf, Hc. cbn [negb orb]. cbv zeta.
  unfold player_connect, emit. by_fields s.
  rewrite set_connected_last. simpl. auto 7.
Qed.

(** X15.  Until an instance reports [ready] nothing in
    [initializeSpotifyPlayer] remembers that a connection was started:
    with a token in the ref, the SDK loaded, the flag still false and no
    handle captured, every call creates and connects one more instance
    and disconnects none, so [n] calls leave [n] more live handles. *)
Theorem repeated_initialize_adds_live_handles (cl : Closure) (s : State) (n : nat) :
  truthy (accessTokenRef s) = true ->
  window_Spotify s = true ->
  playerInitialized s = false ->
  cl_player cl = None ->
  let s' := Nat.iter n (initializeSpotifyPlayer cl) s in
  live_handles s' = live_handles s + n
  /\ List.length (instances s') = List.length (instances s) + n
  /\ http (log s') = http (log s)
  /\ playerInitialized s' = false.
Proof.
  intros Ht Hw Hf Hc. cbv zeta.
  assert (H : live_handles (Nat.iter n (initializeSpotifyPlayer cl) s)
              = live_handles s + n
              /\ List.length (instances (Nat.iter n (initializeSpotifyPlayer cl) s))
                 = List.length (instances s) + n
              /\ http (log (Nat.iter n (initializeSpotifyPlayer cl) s)) = http (log s)
              /\ playerInitialized (Nat.iter n (initializeSpotifyPlayer cl) s) = false
              /\ truthy (accessTokenRef (Nat.iter n (initializeSpotifyPlayer cl) s)) = true
              /\ window_Spotify (Nat.iter n (initializeSpotifyPlayer cl) s) = true).
  { induction n as [| n IH].
    - simpl. rewrite !Nat.add_0_r. auto 7.
    - rewrite Nat.iter_succ.
      set (s1 := Nat.iter n (initializeSpotifyPlayer cl) s) in *.
      destruct IH as (Hl & Hlen & Hh & Hf1 & Ht1 & Hw1).
      destruct (initialize_connects cl s1 Ht1 Hw1 Hf1 Hc)
        as (Hi & Hlog & Hr & Hw2 & Hf2 & _).
      unfold live_handles in *.
      rewrite Hi, live_after_connect, length_app, Hlog, http_app, Hr, Hw2.
      simpl. rewrite app_nil_r. repeat split; auto; lia. }
  destruct H as (H1 & H2 & H3 & H4 & _). auto.
Qed.

Lemma repeated_initialize_adds_live_handles_witness :
  let cl := {| cl_id := 0; cl_player := None; cl_playbackError := None |} in
  let s' := Nat.iter 3 (initializeSpotifyPlayer cl) connecting in
  live_handles s' = live_handles connecting + 3
  /\ List.length (instances s') = List.length (instances connecting) + 3
  /\ http (log s') = http (log connecting)
  /\ playerInitialized s' = false.
Proof.
  apply (repeated_initialize_adds_live_handles
           {| cl_id := 0; cl_player := None; cl_playbackError := None |}
           connecting 3); reflexivity.
Defined.

(** *** Selecting a playlist *)

Lemma exec_keeps_selection (p : Task) (s : State) :
  selectedPlaylistId (exec p s) = selectedPlaylistId s.
Proof.
  revert s. induction p as [| a k IH | rq k _]; intros s; simpl.
  - reflexivity.
  - rewrite IH. destruct a; by_fields s.
  - by_fields s.
Qed.

(** X16.  Selecting the playlist that is already selected does nothing.
    Selecting another one with a session token sends exactly one tracks
    request for it (limit 50, with that token), raises the loading flag
    and clears the error, while the list of the previous playlist stays
    stored; with an empty id or without a token it sends nothing and
    empties the list. *)
Theorem select_playlist_fetches_once (s : State) (playlistId : string) :
  (selectedPlaylistId s = Some playlistId ->
   step (SelectPlaylist playlistId) s = s)
  /\ (selectedPlaylistId s <> Some playlistId ->
      let s' := step (SelectPlaylist playlistId) s in
      selectedPlaylistId s' = Some playlistId
      /\ (playlistId <> "" -> truthy (accessToken s) = true ->
          log s' = log s
                   ++ [Http (GetPlaylistTracks playlistId (str (accessToken s)) 50)]
          /\ isLoadingTracks s' = true
          /\ playbackError s' = None
          /\ tracks s' = tracks s)
      /\ (playlistId = "" \/ truthy (accessToken s) = false ->
          log s' = log s
          /\ pending s' = pending s
          /\ tracks s' = []
          /\ isLoadingTracks s' = isLoadingTracks s
          /\ playbackError s' = playbackError s)).
Proof.
  split.
  - intros H. simpl. unfold select_playlist. rewrite H. simpl.
    rewrite String.eqb_refl. reflexivity.
  - intros Hne s'. subst s'. simpl. unfold select_playlist.
    destruct (same_string (selectedPlaylistId s) (Some playlistId)) eqn:Hsame.
    { apply same_string_eq in Hsame. contradiction. }
    set (r := set_selectedPlaylistId (Some playlistId) s).
    assert (Hr : selectedPlaylistId r = Some playlistId
                 /\ accessToken r = accessToken s)
      by (subst r; by_fields s; auto).
    destruct Hr as [Hsel Htok].
    split; [| split].
    + rewrite exec_keeps_selection. exact Hsel.
    + intros Hid Ht. unfold fetchPlaylistTracks.
      rewrite Hsel, Htok, Ht.
      assert (Hp : truthy (Some playlistId) = true).
      { simpl. apply negb_true_iff, String.eqb_neq. exact Hid. }
      rewrite Hp. cbn [negb orb exec perform str].
      subst r. by_fields s. auto.
    + intros Hno. unfold fetchPlaylistTracks. rewrite Hsel, Htok.
      assert (Hg : negb (truthy (Some playlistId)) || negb (truthy (accessToken s)) = true).
      { destruct Hno as [-> | ->]; [reflexivity | apply orb_true_r]. }
      rewrite Hg. cbn [exec perform]. subst r. by_fields s. auto 7.
Qed.

Lemma select_playlist_fetches_once_witness :
  (selectedPlaylistId listening = Some "Q" ->
   step (SelectPlaylist "Q") listening = listening)
  /\ (selectedPlaylistId listening <> Some "Q" ->
      let s' := step (SelectPlaylist "Q") listening in
      selectedPlaylistId s' = Some "Q"
      /\ ("Q" <> "" -> truthy (accessToken listening) = true ->
          log s' = log listening
                   ++ [Http (GetPlaylistTracks "Q" (str (accessToken listening)) 50)]
          /\ isLoadingTracks s' = true
          /\ playbackError s' = None
          /\ tracks s' = tracks listening)
      /\ ("Q" = "" \/ truthy (accessToken listening) = false ->
          log s' = log listening
          /\ pending s' = pending listening
          /\ tracks s' = []
          /\ isLoadingTracks s' = isLoadingTracks listening
          /\ playbackError s' = playbackError listening)).
Proof.
  exact (select_playlist_fetches_once listening "Q").
Defined.

(** *** Mounting, and the effect after [ready] *)

(** X17.  Mounting starts a connection exactly when the user is signed
    in with a token and the SDK script is already loaded: one instance
    is then created and connected.  When the script is not loaded yet
    the callback is not registered either, so the script's later arrival
    creates no instance. *)
Theorem mount_connects_only_with_loaded_sdk
    (st : Status) (token : option string) (loaded : bool) :
  let s := mount (initial st token loaded) in
  instances s
  = (if is_authenticated st && truthy token && loaded
     then [{| connected := true;
              listeners := {| cl_id := 0; cl_player := None;
                              cl_playbackError := None |} |}]
     else [])
  /\ (loaded = false ->
      window_onSpotifyWebPlaybackSDKReady s = None
      /\ instances (step SdkScriptLoaded s) = []).
Proof.
  unfold mount, initial, token_effect, sdk_effect, sdk_script_loaded,
    initializeSpotifyPlayer, fetchPlaylistTracks.
  destruct st; destruct loaded; destruct (truthy token) eqn:Ht;
    cbn; rewrite ?Ht; cbn; rewrite ?Ht; cbn; split; auto;
    intros H; try discriminate H; auto.
Qed.

Lemma mount_connects_only_with_loaded_sdk_witness :
  let s := mount (initial authenticated (Some "tok") false) in
  instances s
  = (if is_authenticated authenticated && truthy (Some "tok") && false
     then [{| connected := true;
              listeners := {| cl_id := 0; cl_player := None;
                              cl_playbackError := None |} |}]
     else [])
  /\ (false = false ->
      window_onSpotifyWebPlaybackSDKReady s = None
      /\ instances (step SdkScriptLoaded s) = []).
Proof.
  exact (mount_connects_only_with_loaded_sdk authenticated (Some "tok") false).
Defined.

(** What the cleanup of the SDK effect leaves behind. *)
Lemma sdk_cleanup_resets (cl : Closure) (s : State) :
  let s' := sdk_cleanup cl s in
  status s' = status s
  /\ accessTokenRef s' = accessTokenRef s
  /\ window_Spotify s' = window_Spotify s
  /\ playerInitialized s' = false
  /\ deviceId s' = None
  /\ List.length (instances s') = List.length (instances s)
  /\ (forall x, In x (log s) -> In x (log s')).
Proof.
  unfold sdk_cleanup, player_disconnect, emit. destruct s.
  destruct cl as [id [p |] e]; cbn -[truthy];
    (destruct window_onSpotifyWebPlaybackSDKReady0 as [w |];
     [destruct (Nat.eqb (cl_id w) id) |]);
    cbn -[truthy]; rewrite ?set_connected_length;
    repeat split; auto;
    intros x Hx; repeat (apply in_or_app; left); exact Hx.
Qed.

(** A call that passes the guard with a captured handle. *)
Lemma initialize_replaces (cl : Closure) (s : State) (h : Handle) :
  truthy (accessTokenRef s) = true ->
  window_Spotify s = true ->
  playerInitialized s = false ->
  cl_player cl = Some h ->
  let s' := initializeSpotifyPlayer cl s in
  player s' = None
  /\ deviceId s' = deviceId s
  /\ playerInitialized s' = false
  /\ status s' = status s
  /\ playerLoading s' = true
  /\ In (disconnect h) (log s')
  /\ List.length (instances s') = S (List.length (instances s))
  /\ instances s'
     = set_connected h false (instances s)
       ++ [{| connected := true; listeners := cl |}]
  /\ log s' = log s ++ [disconnect h; connect (List.length (instances s))].
Proof.
  intros Ht Hw Hf Hc s'. subst s'. unfold initializeSpotifyPlayer.
  rewrite Ht, Hw, Hf, Hc. cbn [negb orb]. cbv zeta.
  unfold player_connect, player_disconnect, emit. destruct s. cbn -[truthy].
  rewrite set_connected_last, !set_connected_length.
  repeat split; auto.
  - apply in_or_app. left. apply in_or_app. right. simpl. auto.
  - rewrite length_app, set_connected_length. simpl. lia.
  - rewrite <- app_assoc. reflexivity.
Qed.

(** The body of the SDK effect when the guard lets it through and the
    SDK is loaded. *)
Lemma sdk_effect_initializes (r s : State) :
  is_authenticated (status r) = true ->
  truthy (accessTokenRef s) = true ->
  window_Spotify s = true ->
  playerInitialized s = false ->
  exists cl s0,
    sdk_effect r s = set_cleanup (Some cl) (initializeSpotifyPlayer cl s0)
    /\ cl_player cl = player r
    /\ truthy (accessTokenRef s0) = true
    /\ window_Spotify s0 = true
    /\ playerInitialized s0 = false
    /\ deviceId s0 = deviceId s
    /\ status s0 = status s
    /\ instances s0 = instances s
    /\ log s0 = log s.
Proof.
  intros Ha Ht Hw Hf. unfold sdk_effect. rewrite Ha, Ht, Hf. cbn [negb orb].
  cbv zeta.
  set (cl := {| cl_id := closures s; cl_player := player r;
                cl_playbackError := playbackError r |}).
  set (s0 := if window_Spotify (set_closures (S (closures s)) s)
                && negb (is_some (window_onSpotifyWebPlaybackSDKReady
                                    (set_closures (S (closures s)) s)))
             then set_window_onSpotifyWebPlaybackSDKReady (Some cl)
                    (set_closures (S (closures s)) s)
             else set_closures (S (closures s)) s).
  assert (H0 : accessTokenRef s0 = accessTokenRef s
               /\ window_Spotify s0 = window_Spotify s
               /\ playerInitialized s0 = playerInitialized s
               /\ deviceId s0 = deviceId s
               /\ status s0 = status s
               /\ instances s0 = instances s
               /\ log s0 = log s).
  { subst s0.
    match goal with |- context [if ?c then _ else _] => destruct c end;
      by_fields s; auto 10. }
  destruct H0 as (E1 & E2 & E3 & E4 & E5 & E6 & E7).
  exists cl, s0.
  rewrite E1, E2, E3, Ht, Hw, Hf. cbn [negb andb].
  repeat split; auto.
Qed.

(** X18.  The [ready] listener sets [player], a dependency of the SDK
    effect.  When the effect then runs again (a cleanup being
    registered, the user signed in, the SDK loaded), the cleanup resets
    the guard and forgets the device id, and the body disconnects the
    instance that has just become ready, drops the handle, and creates
    and connects a new instance: the component is back in the
    "Initializing" view with the old instance disconnected and the new
    one connecting. *)
Theorem ready_does_not_survive_effect_rerun
    (s : State) (h : Handle) (device_id : string) (cl : Closure) :
  cleanup s = Some cl ->
  status s = authenticated ->
  truthy (accessTokenRef s) = true ->
  window_Spotify s = true ->
  let s1 := on_ready h device_id s in
  let s2 := rerun_sdk_effect s1 in
  let fresh := List.length (instances s) in
  player s1 = Some h
  /\ playerInitialized s1 = true
  /\ player s2 = None
  /\ deviceId s2 = None
  /\ playerInitialized s2 = false
  /\ In (disconnect h) (log s2)
  /\ In (connect fresh) (log s2)
  /\ List.length (instances s2) = S fresh
  /\ (exists cl', nth_error (instances s2) fresh
                  = Some {| connected := true; listeners := cl' |}
                  /\ cl_player cl' = Some h)
  /\ (forall i, h < fresh -> nth_error (instances s2) h = Some i ->
                connected i = false)
  /\ render s2 = Initializing.
Proof.
  intros Hc Hst Ht Hw s1 s2 fresh.
  assert (F1 : player s1 = Some h /\ playerInitialized s1 = true
               /\ cleanup s1 = Some cl /\ status s1 = authenticated
               /\ accessTokenRef s1 = accessTokenRef s
               /\ window_Spotify s1 = true
               /\ instances s1 = instances s).
  { subst s1. unfold on_ready. by_fields s. auto 10. }
  destruct F1 as (P1 & P2 & P3 & P4 & P5 & P6 & P7).
  subst s2. unfold rerun_sdk_effect, run_cleanup. rewrite P3.
  destruct (sdk_cleanup_resets cl s1) as (C1 & C2 & C3 & C4 & C5 & C6 & _).
  set (sA := sdk_cleanup cl s1) in *.
  destruct (sdk_effect_initializes s1 sA)
    as (cl' & s0 & -> & Hcl & T & W & F & D & S0 & I & L).
  { rewrite P4. reflexivity. }
  { rewrite C2, P5. exact Ht. }
  { rewrite C3. exact P6. }
  { exact C4. }
  rewrite P1 in Hcl.
  destruct (initialize_replaces cl' s0 h T W F Hcl)
    as (R1 & R2 & R3 & R4 & R5 & R6 & R7 & R8 & R9).
  set (sB := initializeSpotifyPlayer cl' s0) in *.
  assert (G : player (set_cleanup (Some cl') sB) = player sB
              /\ deviceId (set_cleanup (Some cl') sB) = deviceId sB
              /\ playerInitialized (set_cleanup (Some cl') sB) = playerInitialized sB
              /\ log (set_cleanup (Some cl') sB) = log sB
              /\ instances (set_cleanup (Some cl') sB) = instances sB
              /\ render (set_cleanup (Some cl') sB) = render sB)
    by (by_fields sB; auto 10).
  destruct G as (G1 & G2 & G3 & G4 & G5 & G6).
  assert (Hlen : List.length (instances s0) = fresh).
  { subst fresh. rewrite I, C6, P7. reflexivity. }
  rewrite G1, G2, G3, G4, G5, G6, R1, R2, R3, D, C5.
  split; [exact P1 |]. split; [exact P2 |].
  repeat (split; [reflexivity |]).
  split; [exact R6 |].
  split.
  { rewrite R9, Hlen. apply in_or_app. right. simpl. auto. }
  split.
  { rewrite R7, Hlen. reflexivity. }
  split.
  { exists cl'. split; [| exact Hcl].
    rewrite R8. rewrite <- Hlen.
    rewrite <- (set_connected_length h false (instances s0)).
    apply nth_error_snoc. }
  split.
  { intros i Hlt Hi. rewrite R8 in Hi.
    rewrite nth_error_app1 in Hi
      by (rewrite set_connected_length, Hlen; exact Hlt).
    exact (set_connected_at h false (instances s0) i Hi). }
  unfold render. rewrite R4, S0, C1, P4, R5. reflexivity.
Qed.

Lemma ready_does_not_survive_effect_rerun_witness :
  let s1 := on_ready 0 "dev" connecting in
  let s2 := rerun_sdk_effect s1 in
  let fresh := List.length (instances connecting) in
  player s1 = Some 0
  /\ playerInitialized s1 = true
  /\ player s2 = None
  /\ deviceId s2 = None
  /\ playerInitialized s2 = false
  /\ In (disconnect 0) (log s2)
  /\ In (connect fresh) (log s2)
  /\ List.length (instances s2) = S fresh
  /\ (exists cl', nth_error (instances s2) fresh
                  = Some {| connected := true; listeners := cl' |}
                  /\ cl_player cl' = Some 0)
  /\ (forall i, 0 < fresh -> nth_error (instances s2) 0 = Some i ->
                connected i = false)
  /\ render s2 = Initializing.
Proof.
  apply (ready_does_not_survive_effect_rerun connecting 0 "dev"
           {| cl_id := 0; cl_player := None; cl_playbackError := None |});
    reflexivity.
Defined.

End PlayerSpec.
